(** * Wind-field interpolation and particle streams (app/simulation.ts)

    A shallow embedding of [makeInterpolator], [haversineDist], [Rect],
    [MultiRect] and [makeUpdate], and the properties the specification states
    about them.

    Numbers.  A JavaScript [number] is modelled by [number]: a real, or one of
    the three special values [NaN], [Infinity], [-Infinity].  Finite
    arithmetic is exact (no rounding, no overflow, a single unsigned zero);
    the special values follow the IEEE-754 / ECMAScript rules.  Every
    statement below is a statement about this idealised arithmetic.  Where
    the program's doubles differ, the definition says so: [Math.exp]
    underflows to 0, [haversineDist] is rounded, and [Rect.random] can round
    a point onto an edge of its rect.  A statement whose truth rests on
    exactness (an exact value, a strict bound obtained by arithmetic) says
    that it holds in exact arithmetic.

    Effects.  [Math.random] reads a fixed sequence of draws through a cursor;
    a thrown exception is the [Throws] outcome.  [console] output is not
    part of any result; only the warnings of [makeInterpolator] are modelled. *)

From Stdlib Require Import String.
From Stdlib Require Import Reals Lra Lia List ZArith Bool.
Import ListNotations.
Open Scope R_scope.

(* ================================================================== *)
(** ** JavaScript numbers *)
(* ================================================================== *)

Inductive number : Type :=
| Fin (x : R)
| NaN
| Infinity
| NegInfinity.

Definition Rltb (x y : R) : bool := if Rlt_dec x y then true else false.
Definition Rleb (x y : R) : bool := if Rle_dec x y then true else false.
Definition Reqb (x y : R) : bool := if Req_dec_T x y then true else false.

Module Num.

Definition isNaN (a : number) : bool :=
  match a with NaN => true | _ => false end.

Definition isFinite (a : number) : bool :=
  match a with Fin _ => true | _ => false end.

Definition neg (a : number) : number :=
  match a with
  | Fin x => Fin (- x)
  | NaN => NaN
  | Infinity => NegInfinity
  | NegInfinity => Infinity
  end.

Definition add (a b : number) : number :=
  match a, b with
  | NaN, _ | _, NaN => NaN
  | Fin x, Fin y => Fin (x + y)
  | Infinity, NegInfinity | NegInfinity, Infinity => NaN
  | Infinity, _ | _, Infinity => Infinity
  | NegInfinity, _ | _, NegInfinity => NegInfinity
  end.

Definition sub (a b : number) : number :=
  match a, b with
  | NaN, _ | _, NaN => NaN
  | Fin x, Fin y => Fin (x - y)
  | Infinity, Infinity | NegInfinity, NegInfinity => NaN
  | Infinity, _ | _, NegInfinity => Infinity
  | NegInfinity, _ | _, Infinity => NegInfinity
  end.

(** An infinity of sign [positive] scaled by the finite factor [x]. *)
Definition scaleInf (positive : bool) (x : R) : number :=
  if Reqb x 0 then NaN
  else if Bool.eqb positive (Rltb 0 x) then Infinity else NegInfinity.

Definition mul (a b : number) : number :=
  match a, b with
  | NaN, _ | _, NaN => NaN
  | Fin x, Fin y => Fin (x * y)
  | Fin x, Infinity | Infinity, Fin x => scaleInf true x
  | Fin x, NegInfinity | NegInfinity, Fin x => scaleInf false x
  | Infinity, Infinity | NegInfinity, NegInfinity => Infinity
  | Infinity, NegInfinity | NegInfinity, Infinity => NegInfinity
  end.

(** Division; the zero divisor is the positive zero. *)
Definition div (a b : number) : number :=
  match a, b with
  | NaN, _ | _, NaN => NaN
  | Fin x, Fin y =>
      if Reqb y 0 then scaleInf true x else Fin (x / y)
  | Fin _, Infinity | Fin _, NegInfinity => Fin 0
  | Infinity, Fin y => if Rleb 0 y then Infinity else NegInfinity
  | NegInfinity, Fin y => if Rleb 0 y then NegInfinity else Infinity
  | _, _ => NaN
  end.

(** [a < b], [a <= b], [a > b]: false as soon as one side is [NaN]. *)
Definition ltb (a b : number) : bool :=
  match a, b with
  | Fin x, Fin y => Rltb x y
  | NegInfinity, Fin _ | NegInfinity, Infinity | Fin _, Infinity => true
  | _, _ => false
  end.

Definition leb (a b : number) : bool :=
  match a, b with
  | Fin x, Fin y => Rleb x y
  | NaN, _ | _, NaN => false
  | NegInfinity, _ | _, Infinity => true
  | _, _ => false
  end.

Definition gtb (a b : number) : bool := ltb b a.

End Num.

Declare Scope js_scope.
Delimit Scope js_scope with js.
Bind Scope js_scope with number.
Infix "+" := Num.add : js_scope.
Infix "-" := Num.sub : js_scope.
Infix "*" := Num.mul : js_scope.
Infix "/" := Num.div : js_scope.
Infix "<?" := Num.ltb (at level 70) : js_scope.
Infix "<=?" := Num.leb (at level 70) : js_scope.
Infix ">?" := Num.gtb (at level 70) : js_scope.

(** The [Math] object, as far as the program uses it. *)
Module Math.

Definition PI : number := Fin Rtrigo1.PI.

Definition cos (a : number) : number :=
  match a with Fin x => Fin (Rtrigo_def.cos x) | _ => NaN end.

Definition sin (a : number) : number :=
  match a with Fin x => Fin (Rtrigo_def.sin x) | _ => NaN end.

(** The real exponential is positive everywhere; in doubles [Math.exp]
    returns exactly 0 below about -745. *)
Definition exp (a : number) : number :=
  match a with
  | Fin x => Fin (Rtrigo_def.exp x)
  | NaN => NaN
  | Infinity => Infinity
  | NegInfinity => Fin 0
  end.

(** [Math.pow(base, k)] for a positive integer literal [k] (the program
    only squares): the [k]-fold product. *)
Fixpoint pow (base : number) (k : nat) : number :=
  match k with
  | O => Fin 1
  | S O => base
  | S k' => (base * pow base k')%js
  end.

Definition acos (a : number) : number :=
  match a with
  | Fin x => if Rleb (-1) x && Rleb x 1 then Fin (Ratan.acos x) else NaN
  | _ => NaN
  end.

Definition abs (a : number) : number :=
  match a with
  | Fin x => Fin (Rabs x)
  | NaN => NaN
  | _ => Infinity
  end.

Definition min (a b : number) : number :=
  match a, b with
  | NaN, _ | _, NaN => NaN
  | Fin x, Fin y => Fin (Rmin x y)
  | NegInfinity, _ | _, NegInfinity => NegInfinity
  | Infinity, c | c, Infinity => c
  end.

Definition max (a b : number) : number :=
  match a, b with
  | NaN, _ | _, NaN => NaN
  | Fin x, Fin y => Fin (Rmax x y)
  | Infinity, _ | _, Infinity => Infinity
  | NegInfinity, c | c, NegInfinity => c
  end.

(** Rounding toward zero, and toward minus infinity. *)
Definition Ztrunc (x : R) : Z :=
  if Rleb 0 x then Int_part x else (- Int_part (- x))%Z.

Definition trunc (a : number) : number :=
  match a with Fin x => Fin (IZR (Ztrunc x)) | _ => a end.

Definition floor (a : number) : number :=
  match a with Fin x => Fin (IZR (Int_part x)) | _ => a end.

Definition hypot (a b : number) : number :=
  match a, b with
  | Infinity, _ | NegInfinity, _ | _, Infinity | _, NegInfinity => Infinity
  | NaN, _ | _, NaN => NaN
  | Fin x, Fin y => Fin (sqrt (x * x + y * y))
  end.

(** The angle of the point [(x, y)], in [(-PI, PI]]. *)
Definition Ratan2 (y x : R) : R :=
  if Rltb 0 x then atan (y / x)
  else if Rltb x 0 then
    if Rleb 0 y then atan (y / x) + Rtrigo1.PI else atan (y / x) - Rtrigo1.PI
  else if Rltb 0 y then Rtrigo1.PI / 2
  else if Rltb y 0 then - (Rtrigo1.PI / 2)
  else 0.

Definition atan2 (b a : number) : number :=
  match b, a with
  | NaN, _ | _, NaN => NaN
  | Fin y, Fin x => Fin (Ratan2 y x)
  | Fin y, Infinity => Fin 0
  | Fin y, NegInfinity =>
      if Rleb 0 y then Fin Rtrigo1.PI else Fin (- Rtrigo1.PI)
  | Infinity, Fin _ => Fin (Rtrigo1.PI / 2)
  | NegInfinity, Fin _ => Fin (- (Rtrigo1.PI / 2))
  | Infinity, Infinity => Fin (Rtrigo1.PI / 4)
  | Infinity, NegInfinity => Fin (3 * Rtrigo1.PI / 4)
  | NegInfinity, Infinity => Fin (- (Rtrigo1.PI / 4))
  | NegInfinity, NegInfinity => Fin (- (3 * Rtrigo1.PI / 4))
  end.

End Math.

(* ================================================================== *)
(** ** Outcomes, and the random source *)
(* ================================================================== *)

Inductive exn : Type :=
| RangeError (msg : string)
| TypeError (msg : string)
| Error (msg : string).

Inductive outcome (A : Type) : Type :=
| Returns (a : A)
| Throws (e : exn).
Arguments Returns {A} a.
Arguments Throws {A} e.

Definition bindO {A B : Type} (o : outcome A) (k : A -> outcome B) : outcome B :=
  match o with
  | Returns a => k a
  | Throws e => Throws e
  end.

(** The values that successive calls of [Math.random()] return; call number
    [c] (counted from the start of the program) returns [src c]. *)
Definition RandomSource : Type := nat -> R.

(** A computation that may call [Math.random] and may throw: from the
    number of draws made so far to a result and the new number of draws. *)
Definition M (A : Type) : Type := nat -> outcome (A * nat).

Definition ret {A : Type} (a : A) : M A := fun c => Returns (a, c).

Definition bind {A B : Type} (m : M A) (k : A -> M B) : M B :=
  fun c =>
    match m c with
    | Returns (a, c') => k a c'
    | Throws e => Throws e
    end.

Definition throw {A : Type} (e : exn) : M A := fun _ => Throws e.

Declare Scope monad_scope.
Delimit Scope monad_scope with monad.
Notation "x <- m ;; k" := (bind m (fun x => k))
  (at level 61, m at next level, right associativity) : monad_scope.

Definition Math_random (src : RandomSource) : M number :=
  fun c => Returns (Fin (src c), S c).

(* ================================================================== *)
(** ** Data model (app/datastore.ts) *)
(* ================================================================== *)

Record Position : Type := mkPosition { lat : number; lon : number }.

Record Wind : Type := mkWind { dir : number; speed : number }.

Record Station : Type :=
  mkStation { code : string; name : option string; link : option string }.

Record StationReport : Type :=
  mkReport { station : Station; pos : Position; wind : Wind }.

(** What an index past the end of a report array reads; the loops below
    only index inside the array. *)
Definition undefinedReport : StationReport :=
  mkReport (mkStation EmptyString None None) (mkPosition NaN NaN) (mkWind NaN NaN).

(* ================================================================== *)
(** ** GeoMath *)
(* ================================================================== *)

Definition radians (theta : number) : number :=
  (theta * Math.PI / Fin 180)%js.

Definition degrees (theta : number) : number :=
  (theta * Fin 180 / Math.PI)%js.

(** Haversine function *)
Definition hav (theta : number) : number :=
  ((Fin 1 - Math.cos theta) / Fin 2)%js.

Definition invHav (x : number) : number :=
  Math.acos (Math.min (Fin 1) (Math.max (Fin (-1)) (Fin 1 - Fin 2 * x)%js)).

(** Haversine distance.  Computed here in exact reals: the program's result
    differs from it by rounding, so that an exact value of the distance, or
    the equality of two distances computed from different arguments, is a
    statement about the formula. *)
Definition haversineDist (pos1 pos2 : Position) : number :=
  let latDiff := radians (lat pos2 - lat pos1)%js in
  let lonDiff := radians (lon pos2 - lon pos1)%js in
  let havTheta :=
    (hav latDiff +
     Math.cos (radians (lat pos1)) * Math.cos (radians (lat pos2)) * hav lonDiff)%js in
  invHav havTheta.

Definition EARTH_RADIUS : number := Fin 3963.1.

(* ================================================================== *)
(** ** Dense matrices (the part of the ml-matrix dependency that
       [makeInterpolator] calls) *)
(* ================================================================== *)

(** [l] with slot [k] replaced by [v]; [l] itself when [k] is past the end. *)
Fixpoint setAt {A : Type} (l : list A) (k : nat) (v : A) : list A :=
  match l, k with
  | [], _ => []
  | _ :: t, O => v :: t
  | h :: t, S k' => h :: setAt t k' v
  end.

Module Matrix.

Record t : Type := mk { rows : nat; columns : nat; data : list (list number) }.

(** [new Matrix(r, c)]: zero-filled. *)
Definition zeros (r c : nat) : t := mk r c (repeat (repeat (Fin 0) c) r).

(** A read outside the stored row yields [undefined], which every
    arithmetic operation turns into [NaN]. *)
Definition get (m : t) (i j : nat) : number := nth j (nth i (data m) []) NaN.

Definition set (m : t) (i j : nat) (v : number) : t :=
  mk (rows m) (columns m)
     (setAt (data m) i (setAt (nth i (data m) []) j v)).

Definition columnVector (l : list number) : t :=
  mk (length l) 1 (map (fun x => [x]) l).

Definition rowVector (l : list number) : t := mk 1 (length l) [l].

(** The entry [(i, j)] of a product: the sum is accumulated from 0 over
    [k = 0 .. n-1], in that order. *)
Definition dot (a b : t) (i j : nat) : number :=
  fold_left (fun s k => (s + get a i k * get b k j)%js)
            (seq 0 (columns a)) (Fin 0).

Definition mmul (a b : t) : t :=
  mk (rows a) (columns b)
     (map (fun i => map (fun j => dot a b i j) (seq 0 (columns b)))
          (seq 0 (rows a))).

(** Rows [indices] of [m], in that order. *)
Definition subMatrixRow (m : t) (indices : list nat) : t :=
  mk (length indices) (columns m) (map (fun i => nth i (data m) []) indices).

Definition swapRows (m : t) (p j : nat) : t :=
  mk (rows m) (columns m)
     (setAt (setAt (data m) p (nth j (data m) [])) j (nth p (data m) [])).

End Matrix.

Definition isZero (a : number) : bool :=
  match a with Fin x => Reqb x 0 | _ => false end.

(** [for (k = lo; k < hi; k++) body], as a fold over the index range. *)
Definition forRange {S : Type} (lo hi : nat) (body : nat -> S -> S) (s : S) : S :=
  fold_left (fun s k => body k s) (seq lo (hi - lo)) s.

(** ml-matrix's [solve(A, B)] for a square [A]: LU decomposition with
    partial pivoting (the JAMA algorithm), then forward and back
    substitution.  The library is a dependency of the program and not part
    of its sources; general statements below take the solver as a
    parameter, and [luSolve] instantiates it in closed examples. *)
Module LuDecomposition.

Record state : Type := mkState { lu : Matrix.t; pivotVector : list nat }.

Definition column (j : nat) (st : state) : state :=
  let m := lu st in
  let n := Matrix.rows m in
  (* LUcolj := column j; apply the previous transformations *)
  let LUcolj0 := map (fun i => Matrix.get m i j) (seq 0 n) in
  let '(m1, LUcolj) :=
    forRange 0 n
      (fun i '(m', col) =>
         let kmax := Nat.min i j in
         let s := forRange 0 kmax
                    (fun k s => (s + Matrix.get m' i k * nth k col NaN)%js)
                    (Fin 0) in
         let v := (nth i col NaN - s)%js in
         (Matrix.set m' i j v, setAt col i v))
      (m, LUcolj0) in
  (* find the pivot *)
  let p := forRange (S j) n
             (fun i p =>
                if (Math.abs (nth i LUcolj NaN) >? Math.abs (nth p LUcolj NaN))%js
                then i else p)
             j in
  let '(m2, piv) :=
    if Nat.eqb p j then (m1, pivotVector st)
    else (Matrix.swapRows m1 p j,
          setAt (setAt (pivotVector st) p (nth j (pivotVector st) O))
                 j (nth p (pivotVector st) O)) in
  (* compute the multipliers *)
  let m3 :=
    if Nat.ltb j n && negb (isZero (Matrix.get m2 j j)) then
      forRange (S j) n
        (fun i m' => Matrix.set m' i j (Matrix.get m' i j / Matrix.get m' j j)%js)
        m2
    else m2 in
  mkState m3 piv.

Definition decompose (a : Matrix.t) : state :=
  forRange 0 (Matrix.columns a) column (mkState a (seq 0 (Matrix.rows a))).

Definition isSingular (st : state) : bool :=
  existsb (fun j => isZero (Matrix.get (lu st) j j))
          (seq 0 (Matrix.columns (lu st))).

Definition solve (st : state) (value : Matrix.t) : outcome Matrix.t :=
  let m := lu st in
  if negb (Nat.eqb (Matrix.rows m) (Matrix.rows value)) then
    Throws (Error "Invalid matrix dimensions"%string)
  else if isSingular st then
    Throws (Error "LU matrix is singular"%string)
  else
    let count := Matrix.columns value in
    let n := Matrix.columns m in
    let X0 := Matrix.subMatrixRow value (pivotVector st) in
    let elim (k i : nat) (X : Matrix.t) : Matrix.t :=
      forRange 0 count
        (fun j X' =>
           Matrix.set X' i j
             (Matrix.get X' i j - Matrix.get X' k j * Matrix.get m i k)%js)
        X in
    (* solve L*Y = B(piv,:) *)
    let X1 := forRange 0 n (fun k X => forRange (S k) n (elim k) X) X0 in
    (* solve U*X = Y, for k = n-1 down to 0 *)
    let X2 :=
      fold_left
        (fun X k =>
           let Xd := forRange 0 count
                       (fun j X' =>
                          Matrix.set X' k j (Matrix.get X' k j / Matrix.get m k k)%js)
                       X in
           forRange 0 k (elim k) Xd)
        (rev (seq 0 n)) X1 in
    Returns X2.

End LuDecomposition.

Definition luSolve (leftHandSide rightHandSide : Matrix.t) : outcome Matrix.t :=
  LuDecomposition.solve (LuDecomposition.decompose leftHandSide) rightHandSide.

(* ================================================================== *)
(** ** WindFieldInterpolator: [makeInterpolator] *)
(* ================================================================== *)

Record InterpolatorOptions : Type :=
  mkOptions { basisFn : number -> number;
              norm : Position -> Position -> number }.

(** The default options: a Gaussian basis of shaping coefficient 300 over
    the haversine distance. *)
Definition defaultOptions : InterpolatorOptions :=
  mkOptions (fun r => Math.exp (Fin (-300) * Math.pow r 2)%js) haversineDist.

Definition Interpolator : Type := Position -> number -> Position * Wind.

(** The kernel matrix [bases], filled by the two nested loops. *)
Definition makeBases (opts : InterpolatorOptions) (reports : list StationReport)
  : Matrix.t :=
  let n := length reports in
  forRange 0 n
    (fun i bases =>
       let bases' :=
         forRange 0 i
           (fun j b =>
              let weight :=
                basisFn opts (norm opts (pos (nth i reports undefinedReport))
                                        (pos (nth j reports undefinedReport))) in
              Matrix.set (Matrix.set b i j weight) j i weight)
           bases in
       Matrix.set bases' i i (Fin 1))
    (Matrix.zeros n n).

(** What the second loop writes to the console. *)
Inductive warning : Type :=
| AnomalousSpeed (report : StationReport)
| MissingData (w : Wind).

Definition warnings (reports : list StationReport) : list warning :=
  flat_map
    (fun report =>
       (if (speed (wind report) >? Fin 40)%js then [AnomalousSpeed report] else [])
       ++ (if Num.isNaN (speed (wind report)) || Num.isNaN (dir (wind report))
           then [MissingData (wind report)] else []))
    reports.

(** Note: these speeds are still in miles, just along the lat/lon lines. *)
Definition latSpeeds (reports : list StationReport) : Matrix.t :=
  Matrix.columnVector
    (map (fun r => (speed (wind r) * Math.cos (radians (dir (wind r))))%js) reports).

Definition lonSpeeds (reports : list StationReport) : Matrix.t :=
  Matrix.columnVector
    (map (fun r => (speed (wind r) * Math.sin (radians (dir (wind r))))%js) reports).

(** The two component speeds the returned closure computes at [position]. *)
Definition componentSpeeds (opts : InterpolatorOptions)
    (reports : list StationReport) (latWeights lonWeights : Matrix.t)
    (position : Position) : number * number :=
  let base :=
    Matrix.rowVector
      (map (basisFn opts)
           (map (fun report => norm opts position (pos report)) reports)) in
  (Matrix.get (Matrix.mmul base latWeights) 0 0,
   Matrix.get (Matrix.mmul base lonWeights) 0 0).

(** The closure [makeInterpolator] returns.  (Its [console.log] under
    [debug >= 2] is not modelled.) *)
Definition interpolate (opts : InterpolatorOptions)
    (reports : list StationReport) (latWeights lonWeights : Matrix.t)
  : Interpolator :=
  fun position hours =>
    let '(latSpeed, lonSpeed) :=
      componentSpeeds opts reports latWeights lonWeights position in
    let latMiles := (latSpeed * hours)%js in
    let lonMiles := (lonSpeed * hours)%js in
    let wind :=
      mkWind (degrees (Math.atan2 lonSpeed latSpeed))
             (Math.hypot latSpeed lonSpeed) in
    (mkPosition (lat position + degrees (latMiles / EARTH_RADIUS))%js
                (lon position + degrees (lonMiles / EARTH_RADIUS))%js,
     wind).

Definition Solver : Type := Matrix.t -> Matrix.t -> outcome Matrix.t.

Definition makeInterpolator (solve : Solver) (reports : list StationReport)
    (opts : InterpolatorOptions) : outcome Interpolator :=
  let bases := makeBases opts reports in
  bindO (solve bases (latSpeeds reports)) (fun latWeights =>
  bindO (solve bases (lonSpeeds reports)) (fun lonWeights =>
  Returns (interpolate opts reports latWeights lonWeights))).

(* ================================================================== *)
(** ** Region: [Rect] and [MultiRect] *)
(* ================================================================== *)

Local Open Scope monad_scope.

Module Rect.

Record t : Type :=
  mk { bottom : number; top : number; left : number; right : number;
       area : number }.

(** The constructor. *)
Definition new (corner1 corner2 : Position) : t :=
  let bottom := Math.min (lat corner1) (lat corner2) in
  let top := Math.max (lat corner1) (lat corner2) in
  let left := Math.min (lon corner1) (lon corner2) in
  let right := Math.max (lon corner1) (lon corner2) in
  mk bottom top left right ((top - bottom) * (right - left))%js.

Definition contains (r : t) (p : Position) : bool :=
  (bottom r <? lat p)%js && (lat p <? top r)%js
  && (left r <? lon p)%js && (lon p <? right r)%js.

(** In exact reals a draw in [(0, 1)] gives a point strictly between the two
    edges; in doubles the sum can round onto [bottom] or [top] ([left] or
    [right]), so only the closed bounds are stated of the program. *)
Definition random (src : RandomSource) (r : t) : M Position :=
  u <- Math_random src ;;
  v <- Math_random src ;;
  ret (mkPosition (bottom r + (top r - bottom r) * u)%js
                  (left r + (right r - left r) * v)%js).

End Rect.

Module Stream.
Record t : Type := mk { pos : Position; ttl : number }.
End Stream.

Module MultiRect.

Record t : Type := mk { rects : list Rect.t; totalArea : number }.

(** [areas.reduce((a, b) => a + b)] on a non-empty array. *)
Definition make (first : Rect.t) (rest : list Rect.t) : t :=
  mk (first :: rest) (fold_left Num.add (map Rect.area rest) (Rect.area first)).

(** The constructor; [reduce] without an initial value throws on the
    empty array. *)
Definition new (rs : list Rect.t) : outcome t :=
  match rs with
  | [] => Throws (TypeError "Reduce of empty array with no initial value"%string)
  | first :: rest => Returns (make first rest)
  end.

Definition contains (m : t) (p : Position) : bool :=
  existsb (fun rect => Rect.contains rect p) (rects m).

(** The loop of [random], from the rect list still to visit and the
    threshold accumulated so far. *)
Fixpoint pick (src : RandomSource) (weight threshold : number)
    (rs : list Rect.t) : M Position :=
  match rs with
  | [] => throw (Error "this shouldn't happen"%string)
  | rect :: rest =>
      let threshold' := (threshold + Rect.area rect)%js in
      if (weight <=? threshold')%js then Rect.random src rect
      else pick src weight threshold' rest
  end.

Definition random (src : RandomSource) (m : t) : M Position :=
  u <- Math_random src ;;
  pick src (u * totalArea m)%js (Fin 0) (rects m).

Definition randomStream (src : RandomSource) (m : t)
    (minTicks maxTicks : number) : M Stream.t :=
  p <- random src m ;;
  u <- Math_random src ;;
  ret (Stream.mk p
         (minTicks + Math.trunc (u * Math.abs (maxTicks - minTicks)))%js).

End MultiRect.

Definition corners (lat1 lon1 lat2 lon2 : R) : Rect.t :=
  Rect.new (mkPosition (Fin lat1) (Fin lon1)) (mkPosition (Fin lat2) (Fin lon2)).

(** Low-poly hardcoded approximation of the contiguous USA. *)
Definition USA_OUTER : MultiRect.t :=
  MultiRect.make
    (* The Interior *)
    (corners 32.654 (-117.133) 48.966 (-92.09))
    [ corners 29.11 (-81.394) 41.608 (-92.09);
      (* Midwest *)
      corners 41.608 (-83.093) 46.786 (-92.09);
      corners 47.969 (-89.67) 46.786 (-92.09);
      (* West Coast *)
      corners 48.9988 (-123.027) 37.774 (-117.133);
      corners 48.254 (-124.261) 39.452 (-123.027);
      corners 37.774 (-120.648) 34.014 (-117.113);
      corners 37.774 (-120.648) 35.905 (-121.904);
      (* Southwest/Texas *)
      corners 32.654 (-92.09) 31.32 (-115.095);
      corners 26.21 (-92.09) 31.32 (-106.41);
      (* Lake Erie *)
      corners 41.608 (-71.031) 44.67 (-74.97);
      corners 43.26 (-74.97) 44.26 (-75.9);
      corners 41.608 (-76.117) 43.26 (-79.033);
      corners 41.608 (-79.033) 42.123 (-81.3);
      (* East Coast *)
      corners 41.608 (-81.394) 34.718 (-75.987);
      corners 47.16 (-67.85) 44.32 (-69.77);
      corners 43.07 (-71.031) 45.089 (-69.77);
      corners 36.84 (-75.987) 41.608 (-71.16);
      corners 34.718 (-81.394) 32.77 (-79.91);
      corners 34.718 (-79.91) 33.7 (-77.84);
      (* FL *)
      corners 29.11 (-81.394) 27.12 (-82.48);
      corners 27.12 (-81.79) 25.07 (-80.18);
      corners 27.12 (-81.21) 28.61 (-80.8) ].

Definition USA_INNER : MultiRect.t :=
  MultiRect.make
    (corners 34.59 (-120.47) 48.51 (-92.99))
    [ corners 41.46 (-81.65) 30.44 (-92.99);
      corners 34.93 (-81.65) 41.46 (-75.98);
      corners 41.69 (-83.32) 45.81 (-92.99) ].

(* ================================================================== *)
(** ** ParticleStreamSimulator: [makeUpdate] *)
(* ================================================================== *)

(** What an index past the end of the pool reads; the loop only indexes
    inside the pool. *)
Definition undefinedStream : Stream.t := Stream.mk (mkPosition NaN NaN) NaN.

(** The variables the closure returned by [makeUpdate] captures; [streams]
    is the one it mutates. *)
Record Update : Type :=
  mkUpdate { tickDuration : number;
             minTicks : number;
             maxTicks : number;
             streams : list Stream.t }.

Definition maxTicksOf (maxWindow tickDuration : number) : number :=
  Math.min (Fin 10) (Math.trunc (maxWindow / tickDuration)%js).

Definition minTicksOf (maxTicks : number) : number :=
  Math.min (Fin 5) (Math.trunc (Fin 0.7 * maxTicks)%js).

(** [new Array(n).fill(null).map(f)] for an [f] that ignores its arguments. *)
Fixpoint replicateM {A : Type} (n : nat) (m : M A) : M (list A) :=
  match n with
  | O => ret []
  | S n' => x <- m ;; xs <- replicateM n' m ;; ret (x :: xs)
  end.

(** [makeUpdate], from the values [util.getIntParam("points", 800)],
    [util.getFloatParam("window", 168)] and [util.getFloatParam("tick", 0.5)]
    return. *)
Definition makeUpdate (src : RandomSource) (numPoints : Z)
    (maxWindow tickDuration : number) : M Update :=
  let maxTicks := maxTicksOf maxWindow tickDuration in
  let minTicks := minTicksOf maxTicks in
  if ((numPoints <? 0) || (4294967295 <? numPoints))%Z then
    throw (RangeError "Invalid array length"%string)
  else
    streams <- replicateM (Z.to_nat numPoints)
                 (MultiRect.randomStream src USA_OUTER minTicks maxTicks) ;;
    ret (mkUpdate tickDuration minTicks maxTicks streams).

Definition Delta : Type := (Position * Position)%type.

(** One iteration of the loop of the returned closure, on the pool and the
    output list built so far. *)
Definition updateBody (src : RandomSource) (u : Update) (interpolator : Interpolator)
    (i : nat) (st : list Stream.t * list Delta) : M (list Stream.t * list Delta) :=
  let '(streams, deltas) := st in
  let stream := nth i streams undefinedStream in
  sp <- (if (Stream.ttl stream <=? Fin 0)%js
            || negb (MultiRect.contains USA_OUTER (Stream.pos stream))
         then
           fresh <- MultiRect.randomStream src USA_OUTER (minTicks u) (maxTicks u) ;;
           ret (setAt streams i fresh, fresh)
         else ret (streams, stream)) ;;
  let '(streams, stream) := sp in
  let prevPos := Stream.pos stream in
  let '(nextPos, _) := interpolator prevPos (tickDuration u) in
  let stream := Stream.mk nextPos (Stream.ttl stream) in
  let stream := Stream.mk (Stream.pos stream) (Stream.ttl stream - Fin 1)%js in
  ret (setAt streams i stream, deltas ++ [(prevPos, Stream.pos stream)]).

Fixpoint forM {S : Type} (l : list nat) (body : nat -> S -> M S) (s : S) : M S :=
  match l with
  | [] => ret s
  | i :: l' => s' <- body i s ;; forM l' body s'
  end.

(** The closure [makeUpdate] returns: one tick. *)
Definition update (src : RandomSource) (u : Update) (interpolator : Interpolator)
  : M (list Delta * Update) :=
  st <- forM (seq 0 (length (streams u)))
             (updateBody src u interpolator) (streams u, []) ;;
  ret (snd st,
       mkUpdate (tickDuration u) (minTicks u) (maxTicks u) (fst st)).

(* ================================================================== *)
(** ** Vocabulary of the statements *)
(* ================================================================== *)

(** A rect as the constructor builds it from finite corners: finite bounds,
    [bottom <= top], [left <= right], and the planar area. *)
Definition Rect_valid (r : Rect.t) : Prop :=
  exists b t l rr : R,
    r = Rect.mk (Fin b) (Fin t) (Fin l) (Fin rr) (Fin ((t - b) * (rr - l)))
    /\ b <= t /\ l <= rr.

(** The invariant of the data model: [bottom < top], [left < right]
    (hence a positive area). *)
Definition Rect_proper (r : Rect.t) : Prop :=
  exists b t l rr : R,
    r = Rect.mk (Fin b) (Fin t) (Fin l) (Fin rr) (Fin ((t - b) * (rr - l)))
    /\ b < t /\ l < rr.

(** The threshold the loop of [random] compares against at rect [k]. *)
Definition thresholdAt (rs : list Rect.t) (k : nat) : number :=
  fold_left Num.add (map Rect.area (firstn (S k) rs)) (Fin 0).

(** The respawn test of the loop body. *)
Definition needsRespawn (s : Stream.t) : bool :=
  (Stream.ttl s <=? Fin 0)%js
  || negb (MultiRect.contains USA_OUTER (Stream.pos s)).

(** Advection of one particle: its state after the tick and its segment. *)
Definition advect (u : Update) (interpolator : Interpolator) (s : Stream.t)
  : Stream.t * Delta :=
  let nextPos := fst (interpolator (Stream.pos s) (tickDuration u)) in
  (Stream.mk nextPos (Stream.ttl s - Fin 1)%js, (Stream.pos s, nextPos)).

(** What one iteration of the loop does to the particle it visits. *)
Definition processStream (src : RandomSource) (u : Update)
    (interpolator : Interpolator) (s : Stream.t) : M (Stream.t * Delta) :=
  s' <- (if needsRespawn s
         then MultiRect.randomStream src USA_OUTER (minTicks u) (maxTicks u)
         else ret s) ;;
  ret (advect u interpolator s').

(** The particles of a pool processed one after the other. *)
Fixpoint processAll (src : RandomSource) (u : Update)
    (interpolator : Interpolator) (l : list Stream.t)
  : M (list Stream.t * list Delta) :=
  match l with
  | [] => ret ([], [])
  | s :: l' =>
      r <- processStream src u interpolator s ;;
      rs <- processAll src u interpolator l' ;;
      ret (fst r :: fst rs, snd r :: snd rs)
  end.

Definition finitePosition (p : Position) : bool :=
  Num.isFinite (lat p) && Num.isFinite (lon p).

(** A matrix whose stored rows agree with its declared dimensions. *)
Definition wellShaped (m : Matrix.t) (r c : nat) : Prop :=
  Matrix.rows m = r /\ Matrix.columns m = c
  /\ length (Matrix.data m) = r
  /\ forall i, (i < r)%nat -> length (nth i (Matrix.data m) []) = c.

(** The basis weight between reports [a] and [b], as the inner loop
    computes it ([a] is the row index of the loop, [b] its column index). *)
Definition kernel (opts : InterpolatorOptions) (reports : list StationReport)
    (a b : nat) : number :=
  basisFn opts (norm opts (pos (nth a reports undefinedReport))
                          (pos (nth b reports undefinedReport))).

(** The entry [(i, j)] of the kernel matrix. *)
Definition basesEntry (opts : InterpolatorOptions) (reports : list StationReport)
    (i j : nat) : number :=
  if Nat.eqb i j then Fin 1
  else if Nat.ltb j i then kernel opts reports i j
  else kernel opts reports j i.

(** The two channels of a report's wind. *)
Definition latSpeedOf (r : StationReport) : number :=
  (speed (wind r) * Math.cos (radians (dir (wind r))))%js.

Definition lonSpeedOf (r : StationReport) : number :=
  (speed (wind r) * Math.sin (radians (dir (wind r))))%js.

(** The reports the specification would retain. *)
Definition finiteWind (r : StationReport) : bool :=
  Num.isFinite (speed (wind r)) && Num.isFinite (dir (wind r)).

(** What a caller of [makeInterpolator(reports)(position, hours)] observes. *)
Definition evaluateOn (built : outcome Interpolator) (position : Position)
    (hours : number) : outcome (Position * Wind) :=
  bindO built (fun interpolator => Returns (interpolator position hours)).

(** The haversine of the central angle between two finite positions. *)
Definition havTheta (lat1 lon1 lat2 lon2 : R) : R :=
  (1 - cos ((lat2 - lat1) * PI / 180)) / 2
  + cos (lat1 * PI / 180) * cos (lat2 * PI / 180)
    * ((1 - cos ((lon2 - lon1) * PI / 180)) / 2).

(* ================================================================== *)
(** ** Example inputs *)
(* ================================================================== *)

(** A random source whose every draw is one half. *)
Definition halfDraws : RandomSource := fun _ => 1 / 2.

(** A point of the interior (Kansas). *)
Definition kansas : Position := mkPosition (Fin 40) (Fin (-100)).

(** A pool of one particle at [kansas] with [ttl] ticks left, under the
    default configuration (window 168 h, tick 0.5 h). *)
Definition poolOfOne (ttl : R) : Update :=
  mkUpdate (Fin 0.5) (Fin 5) (Fin 10) [Stream.mk kansas (Fin ttl)].

(** The closure built from no report at all. *)
Definition emptyInterpolator : Interpolator :=
  interpolate defaultOptions [] (Matrix.mk 0 1 []) (Matrix.mk 0 1 []).

(** Two reports at [kansas]: a 10 mph wind along the +lat axis, and one
    whose speed is missing. *)
Definition northerly : StationReport :=
  mkReport (mkStation "KS" None None) kansas (mkWind (Fin 0) (Fin 10)).

Definition missing : StationReport :=
  mkReport (mkStation "KS" None None) kansas (mkWind (Fin 0) NaN).

(** A second station, five degrees north of [kansas], with a 20 mph wind
    along the +lon axis. *)
Definition dakota : Position := mkPosition (Fin 45) (Fin (-100)).

Definition easterly : StationReport :=
  mkReport (mkStation "SD" None None) dakota (mkWind (Fin 90) (Fin 20)).

(* ================================================================== *)
(** * Further code, and the vocabulary of its properties *)
(* ================================================================== *)

(** The number of particles of a pool that the next tick respawns. *)
Definition respawns (l : list Stream.t) : nat :=
  length (filter needsRespawn l).

(** The driver of app/index.ts calls the closure once per animation frame;
    [n] frames in a row with one interpolator. *)
Fixpoint runTicks (src : RandomSource) (interpolator : Interpolator) (n : nat)
    (u : Update) : M (list (list Delta) * Update) :=
  match n with
  | O => ret ([], u)
  | S n' =>
      r <- update src u interpolator ;;
      rs <- runTicks src interpolator n' (snd r) ;;
      ret (fst r :: fst rs, snd rs)
  end.

(** Where a particle that is never respawned stands after [j] ticks. *)
Fixpoint trajectory (interpolator : Interpolator) (hours : number) (j : nat)
    (p : Position) : Position :=
  match j with
  | O => p
  | S j' => trajectory interpolator hours j' (fst (interpolator p hours))
  end.

(* ================================================================== *)
(** ** URL parameters (the [util] module) *)
(* ================================================================== *)

(** [URLSearchParams.get]: the value of the first pair named [name], or
    [null]. *)
Definition searchParams_get (params : list (string * string)) (name : string)
  : option string :=
  match find (fun kv => String.eqb (fst kv) name) params with
  | Some kv => Some (snd kv)
  | None => None
  end.

(** [getNumericParam], from the search parameters of [location.href];
    [parseFn] is [parseInt] or [parseFloat]. *)
Definition getNumericParam (parseFn : string -> number)
    (params : list (string * string)) (name : string) (defaultValue : number)
  : number :=
  match searchParams_get params name with
  | None => defaultValue
  | Some rawValue =>
      if String.eqb rawValue EmptyString then defaultValue
      else
        let value := parseFn rawValue in
        if Num.isNaN value then defaultValue else value
  end.

(* ================================================================== *)
(** ** DataStore (app/datastore.ts): construction and batching *)
(* ================================================================== *)

(** [Set.prototype.has] on a set of station codes. *)
Definition Set_has (s : list string) (x : string) : bool :=
  existsb (String.eqb x) s.

(** A number is falsy when it is zero or [NaN]. *)
Definition truthy (a : number) : bool := negb (isZero a || Num.isNaN a).

(** [given || fallback] for an optional number. *)
Definition orElse (given : option number) (fallback : number) : number :=
  match given with
  | Some v => if truthy v then v else fallback
  | None => fallback
  end.

Module DataStore.

Record options : Type :=
  mkOptions { opt_stations : option (list string);
              opt_ttl : option number;
              opt_batchSize : option number }.

Record t : Type :=
  mk { stations : list string; batchSize : number; ttl : number }.

Definition DEFAULT_STATIONS : list string :=
  ([
    "ABQ"; "ALB"; "AMA"; "ATL"; "BGR"; "BHM"; "BIL"; "BIS"; "BOI"; "BOS";
    "BNA"; "BTV"; "BUF"; "BWI"; "CHS"; "CLE"; "CLT"; "CMH"; "CNY"; "COS";
    "CPR"; "CRP"; "CSG"; "CRW"; "DEN"; "DFW"; "DLH"; "DSM"; "DTW"; "ELP";
    "FAR"; "FAT"; "FSD"; "FWA"; "GEG"; "GRR"; "IAD"; "IAH"; "ICT"; "ILM";
    "IND"; "JAX"; "JAN"; "JFK"; "LAS"; "LAX"; "LBB"; "LEX"; "LIT"; "MCI";
    "MCO"; "MDT"; "MEM"; "MHT"; "MIA"; "MKE"; "MOB"; "MSN"; "MSY"; "MSP";
    "OKC"; "OMA"; "ORD"; "PHL"; "PHX"; "PDX"; "PIT"; "RDD"; "RDU"; "RIC";
    "RNO"; "SAT"; "SAV"; "SAN"; "SDF"; "SEA"; "SFO"; "SLC"; "SMF"; "STL";
    "SYR"; "TPA"; "TUS"; "TVC"; "TYS"
  ])%string.

(** The constructor. *)
Definition new (o : options) : t :=
  mk (match opt_stations o with Some s => s | None => DEFAULT_STATIONS end)
     (orElse (opt_batchSize o) (Fin 8))
     (orElse (opt_ttl o) (Fin (24 * 60 * 60))).

(** The loop of [load] over the station links of the product page, after
    [parseStationLink]: the stations whose reports are fetched, grouped as
    they are handed to [resolveBatch].  [stored] holds the station codes of
    the reports found in the cache; [pending] is the batch being filled. *)
Fixpoint loadLoop (store : t) (stored : list string) (links : list Station)
    (pending : list Station) : list (list Station) :=
  match links with
  | [] => if Nat.ltb 0 (length pending) then [pending] else []
  | station :: links' =>
      if Set_has (stations store) (code station)
         && negb (Set_has stored (code station))
      then
        let pending := pending ++ [station] in
        if (batchSize store <=? Fin (INR (length pending)))%js
        then pending :: loadLoop store stored links' []
        else loadLoop store stored links' pending
      else loadLoop store stored links' pending
  end.

Definition loadBatches (store : t) (stored : list string) (links : list Station)
  : list (list Station) :=
  loadLoop store stored links [].

(** The stations [load] has to fetch: selected, and not in the cache. *)
Definition wanted (store : t) (stored : list string) (station : Station) : bool :=
  Set_has (stations store) (code station) && negb (Set_has stored (code station)).

End DataStore.

(* ================================================================== *)
(** * Properties *)
(* ================================================================== *)

Arguments USA_OUTER : simpl never.
Arguments USA_INNER : simpl never.

(** ** Deciding comparisons of reals *)

Lemma Rltb_true (x y : R) : x < y -> Rltb x y = true.
Proof. intros H. unfold Rltb. destruct (Rlt_dec x y); [reflexivity | contradiction]. Qed.

Lemma Rltb_false (x y : R) : ~ x < y -> Rltb x y = false.
Proof. intros H. unfold Rltb. destruct (Rlt_dec x y); [contradiction | reflexivity]. Qed.

Lemma Rleb_true (x y : R) : x <= y -> Rleb x y = true.
Proof. intros H. unfold Rleb. destruct (Rle_dec x y); [reflexivity | contradiction]. Qed.

Lemma Rleb_false (x y : R) : ~ x <= y -> Rleb x y = false.
Proof. intros H. unfold Rleb. destruct (Rle_dec x y); [contradiction | reflexivity]. Qed.

Lemma Reqb_true (x y : R) : x = y -> Reqb x y = true.
Proof. intros H. unfold Reqb. destruct (Req_dec_T x y); [reflexivity | contradiction]. Qed.

Lemma Reqb_false (x y : R) : x <> y -> Reqb x y = false.
Proof. intros H. unfold Reqb. destruct (Req_dec_T x y); [contradiction | reflexivity]. Qed.

Lemma Rltb_spec (x y : R) : Rltb x y = true <-> x < y.
Proof. unfold Rltb. destruct (Rlt_dec x y); split; intros; auto; discriminate. Qed.

Lemma Rleb_spec (x y : R) : Rleb x y = true <-> x <= y.
Proof. unfold Rleb. destruct (Rle_dec x y); split; intros; auto; discriminate. Qed.

(** Settle every comparison of the goal that linear arithmetic decides. *)
Ltac rdecide :=
  repeat match goal with
    | |- context [Rltb ?a ?b] =>
        first [ rewrite (Rltb_true a b) by lra | rewrite (Rltb_false a b) by lra ]
    | |- context [Rleb ?a ?b] =>
        first [ rewrite (Rleb_true a b) by lra | rewrite (Rleb_false a b) by lra ]
    | |- context [Reqb ?a ?b] =>
        first [ rewrite (Reqb_true a b) by lra | rewrite (Reqb_false a b) by lra ]
    end.

Lemma PI_neq_0 : Rtrigo1.PI <> 0.
Proof. pose proof PI_RGT_0. lra. Qed.

Lemma div_Fin (x y : R) : y <> 0 -> (Fin x / Fin y)%js = Fin (x / y).
Proof. intros H. simpl. rewrite Reqb_false by assumption. reflexivity. Qed.

Lemma radians_Fin (x : R) : radians (Fin x) = Fin (x * Rtrigo1.PI / 180).
Proof. unfold radians, Math.PI. simpl Num.mul. apply div_Fin. lra. Qed.

Lemma degrees_Fin (x : R) : degrees (Fin x) = Fin (x * 180 / Rtrigo1.PI).
Proof. unfold degrees, Math.PI. simpl Num.mul. apply div_Fin. apply PI_neq_0. Qed.

Lemma mul_NaN_r (a : number) : (a * NaN)%js = NaN.
Proof. destruct a; reflexivity. Qed.

Lemma add_NaN_r (a : number) : (a + NaN)%js = NaN.
Proof. destruct a; reflexivity. Qed.

(** ** Lists updated by index *)

Lemma length_setAt {A : Type} (l : list A) (k : nat) (v : A) :
  length (setAt l k v) = length l.
Proof.
  revert k. induction l as [| h t IH]; intros [| k]; simpl; auto.
Qed.

Lemma nth_setAt_eq {A : Type} (l : list A) (k : nat) (v d : A) :
  (k < length l)%nat -> nth k (setAt l k v) d = v.
Proof.
  revert k. induction l as [| h t IH]; intros [| k] H; simpl in *; try lia; auto.
  apply IH. lia.
Qed.

Lemma nth_setAt_neq {A : Type} (l : list A) (k j : nat) (v d : A) :
  j <> k -> nth j (setAt l k v) d = nth j l d.
Proof.
  revert k j. induction l as [| h t IH]; intros [| k] [| j] H; simpl; auto;
    try contradiction.
Qed.

Lemma setAt_app_here {A : Type} (done rest : list A) (x v : A) :
  setAt (done ++ x :: rest) (length done) v = done ++ v :: rest.
Proof. induction done as [| h t IH]; simpl; [reflexivity | now rewrite IH]. Qed.

Lemma nth_app_here {A : Type} (done rest : list A) (x d : A) :
  nth (length done) (done ++ x :: rest) d = x.
Proof. induction done as [| h t IH]; simpl; auto. Qed.

(** ** Region *)

Lemma Rect_proper_valid (r : Rect.t) : Rect_proper r -> Rect_valid r.
Proof.
  intros (b & t & l & rr & -> & Hb & Hl).
  exists b, t, l, rr. repeat split; lra.
Qed.

Lemma corners_valid (lat1 lon1 lat2 lon2 : R) :
  Rect_valid (corners lat1 lon1 lat2 lon2).
Proof.
  exists (Rmin lat1 lat2), (Rmax lat1 lat2), (Rmin lon1 lon2), (Rmax lon1 lon2).
  split; [reflexivity |].
  split; apply Rle_trans with (1 := Rmin_l _ _); apply Rmax_l.
Qed.

Lemma corners_proper (lat1 lon1 lat2 lon2 : R) :
  lat1 <> lat2 -> lon1 <> lon2 -> Rect_proper (corners lat1 lon1 lat2 lon2).
Proof.
  intros Hlat Hlon.
  exists (Rmin lat1 lat2), (Rmax lat1 lat2), (Rmin lon1 lon2), (Rmax lon1 lon2).
  split; [reflexivity |].
  unfold Rmin, Rmax. split; destruct (Rle_dec _ _); lra.
Qed.

Lemma USA_OUTER_valid : Forall Rect_valid (MultiRect.rects USA_OUTER).
Proof.
  unfold USA_OUTER, MultiRect.make, MultiRect.rects.
  repeat (constructor; [apply corners_valid |]). constructor.
Qed.

Lemma Rect_random_run (src : RandomSource) (r : Rect.t) (c : nat) :
  Rect.random src r c =
  Returns (mkPosition
             (Rect.bottom r + (Rect.top r - Rect.bottom r) * Fin (src c))%js
             (Rect.left r + (Rect.right r - Rect.left r) * Fin (src (S c)))%js,
           S (S c)).
Proof. reflexivity. Qed.

(** The loop returns a point of the first rect whose threshold reaches the
    weight, and throws when there is none. *)
Lemma pick_first (src : RandomSource) (w : number) (rs : list Rect.t) :
  forall (t : number) (k : nat) (rect : Rect.t) (c : nat),
    nth_error rs k = Some rect ->
    (w <=? fold_left Num.add (map Rect.area (firstn (S k) rs)) t)%js = true ->
    (forall j, (j < k)%nat ->
       (w <=? fold_left Num.add (map Rect.area (firstn (S j) rs)) t)%js = false) ->
    MultiRect.pick src w t rs c = Rect.random src rect c.
Proof.
  induction rs as [| r rs IH]; intros t k rect c Hk Hle Hlt.
  - destruct k; discriminate.
  - destruct k as [| k].
    + injection Hk as <-. simpl in Hle. simpl. rewrite Hle. reflexivity.
    + simpl in Hk. simpl MultiRect.pick.
      pose proof (Hlt O ltac:(lia)) as H0. simpl in H0. rewrite H0.
      apply IH with (k := k); auto.
      intros j Hj. apply (Hlt (S j)). lia.
Qed.

Lemma pick_none (src : RandomSource) (w : number) (rs : list Rect.t) :
  forall (t : number) (c : nat),
    (forall j, (j < length rs)%nat ->
       (w <=? fold_left Num.add (map Rect.area (firstn (S j) rs)) t)%js = false) ->
    MultiRect.pick src w t rs c = Throws (Error "this shouldn't happen"%string).
Proof.
  induction rs as [| r rs IH]; intros t c Hlt.
  - reflexivity.
  - simpl MultiRect.pick.
    pose proof (Hlt O ltac:(simpl; lia)) as H0. simpl in H0. rewrite H0.
    apply IH. intros j Hj. apply (Hlt (S j)). simpl. lia.
Qed.

Lemma fold_add_Fin (l : list R) (t : R) :
  fold_left Num.add (map Fin l) (Fin t) = Fin (fold_left Rplus l t).
Proof. revert t. induction l as [| a l IH]; intros t; simpl; auto. Qed.

Lemma fold_Rplus_ge (l : list R) (t : R) :
  Forall (fun a => 0 <= a) l -> t <= fold_left Rplus l t.
Proof.
  revert t. induction l as [| a l IH]; intros t H; simpl; [lra |].
  inversion H; subst. apply Rle_trans with (t + a); [lra | auto].
Qed.

(** In a non-empty list of reals, the first prefix sum that reaches [w]. *)
Lemma first_prefix (l : list R) :
  forall (t w : R),
    l <> [] -> w <= fold_left Rplus l t ->
    exists k, (k < length l)%nat
      /\ w <= fold_left Rplus (firstn (S k) l) t
      /\ forall j, (j < k)%nat -> ~ w <= fold_left Rplus (firstn (S j) l) t.
Proof.
  induction l as [| a l IH]; intros t w Hne Hw; [congruence |].
  destruct (Rle_dec w (t + a)) as [Hle | Hgt].
  - exists O. simpl. repeat split; [lia | exact Hle | intros; lia].
  - destruct l as [| a' l'].
    + simpl in Hw. contradiction.
    + destruct (IH (t + a) w ltac:(discriminate) Hw) as (k & Hk & Hle & Hlt).
      exists (S k). repeat split.
      * simpl in *. lia.
      * exact Hle.
      * intros [| j] Hj; [simpl; exact Hgt |].
        apply (Hlt j). lia.
Qed.

Lemma valid_areas (rs : list Rect.t) :
  Forall Rect_valid rs ->
  exists l, map Rect.area rs = map Fin l /\ Forall (fun a => 0 <= a) l.
Proof.
  induction 1 as [| r rs (b & t & lf & rr & -> & Hb & Hl) _ (l & Hmap & Hpos)].
  - exists []. split; constructor.
  - exists ((t - b) * (rr - lf) :: l). split.
    + simpl. now rewrite Hmap.
    + constructor; [nra | assumption].
Qed.

Section RegionSampling.

Variable src : RandomSource.
Hypothesis src_range : forall n, 0 <= src n < 1.

(** On a region of valid rects [random] never reaches its [throw]: it
    returns a point of the first rect whose threshold reaches the weight. *)
Lemma random_valid (first : Rect.t) (rest : list Rect.t) (c : nat) :
  Forall Rect_valid (first :: rest) ->
  let m := MultiRect.make first rest in
  let w := (Fin (src c) * MultiRect.totalArea m)%js in
  exists k rect,
    nth_error (MultiRect.rects m) k = Some rect
    /\ (w <=? thresholdAt (MultiRect.rects m) k)%js = true
    /\ (forall j, (j < k)%nat ->
          (w <=? thresholdAt (MultiRect.rects m) j)%js = false)
    /\ MultiRect.random src m c = Rect.random src rect (S c).
Proof.
  intros Hv m w.
  destruct (valid_areas _ Hv) as (l & Hmap & Hpos).
  destruct l as [| a0 l']; [discriminate |].
  simpl in Hmap. injection Hmap as Ha0 Hrest.
  assert (HT : MultiRect.totalArea m = Fin (fold_left Rplus (a0 :: l') 0)).
  { unfold m, MultiRect.make. simpl MultiRect.totalArea.
    rewrite Ha0, Hrest, fold_add_Fin. simpl. now rewrite Rplus_0_l. }
  assert (Hth : forall j, thresholdAt (MultiRect.rects m) j
                          = Fin (fold_left Rplus (firstn (S j) (a0 :: l')) 0)).
  { intros j. unfold thresholdAt, m, MultiRect.make.
    cbn [MultiRect.rects]. rewrite <- firstn_map.
    cbn [map]. rewrite Ha0, Hrest.
    change (Fin a0 :: map Fin l') with (map Fin (a0 :: l')).
    rewrite firstn_map. apply fold_add_Fin. }
  set (T := fold_left Rplus (a0 :: l') 0) in *.
  assert (HT0 : 0 <= T) by (apply fold_Rplus_ge; assumption).
  assert (Hw : w = Fin (src c * T)) by (unfold w; rewrite HT; reflexivity).
  assert (HwT : src c * T <= T) by (pose proof (src_range c); nra).
  destruct (first_prefix (a0 :: l') 0 (src c * T) ltac:(discriminate) HwT)
    as (k & Hk & Hle & Hlt).
  assert (Hlen : length (MultiRect.rects m) = length (a0 :: l')).
  { unfold m, MultiRect.make. cbn [MultiRect.rects].
    simpl. f_equal. rewrite <- (length_map Rect.area rest), Hrest.
    apply length_map. }
  destruct (nth_error (MultiRect.rects m) k) as [rect |] eqn:Hnth.
  2:{ apply nth_error_None in Hnth. lia. }
  exists k, rect. split; [exact Hnth |].
  assert (Hle' : (w <=? thresholdAt (MultiRect.rects m) k)%js = true).
  { rewrite Hth, Hw. simpl. now apply Rleb_true. }
  assert (Hlt' : forall j, (j < k)%nat ->
                   (w <=? thresholdAt (MultiRect.rects m) j)%js = false).
  { intros j Hj. rewrite Hth, Hw. simpl. apply Rleb_false. now apply Hlt. }
  repeat split; auto.
  unfold MultiRect.random, bind, Math_random. fold w.
  apply pick_first with (k := k); auto.
Qed.

(** A point drawn in a valid rect has finite coordinates inside the
    closed box. *)
Lemma Rect_random_valid (rect : Rect.t) (c : nat) :
  Rect_valid rect ->
  exists la lo,
    Rect.random src rect c = Returns (mkPosition (Fin la) (Fin lo), S (S c))
    /\ (Rect.bottom rect <=? Fin la)%js = true
    /\ (Fin la <=? Rect.top rect)%js = true
    /\ (Rect.left rect <=? Fin lo)%js = true
    /\ (Fin lo <=? Rect.right rect)%js = true.
Proof.
  intros (b & t & l & rr & -> & Hb & Hl).
  exists (b + (t - b) * src c), (l + (rr - l) * src (S c)).
  pose proof (src_range c). pose proof (src_range (S c)).
  split; [reflexivity |].
  simpl. repeat split; apply Rleb_true; nra.
Qed.

Lemma randomStream_valid (first : Rect.t) (rest : list Rect.t)
    (mn mx : number) (c : nat) :
  Forall Rect_valid (first :: rest) ->
  exists la lo,
    MultiRect.randomStream src (MultiRect.make first rest) mn mx c =
    Returns (Stream.mk (mkPosition (Fin la) (Fin lo))
               (mn + Math.trunc (Fin (src (3 + c)%nat) * Math.abs (mx - mn)))%js,
             (4 + c)%nat).
Proof.
  intros Hv.
  destruct (random_valid first rest c Hv) as (k & rect & Hnth & _ & _ & Hrun).
  assert (Hr : Rect_valid rect).
  { apply nth_error_In in Hnth. rewrite Forall_forall in Hv. now apply Hv. }
  destruct (Rect_random_valid rect (S c) Hr) as (la & lo & Hp & _).
  exists la, lo.
  unfold MultiRect.randomStream, bind. rewrite Hrun, Hp. reflexivity.
Qed.

Lemma randomStream_USA_OUTER (mn mx : number) (c : nat) :
  exists la lo,
    MultiRect.randomStream src USA_OUTER mn mx c =
    Returns (Stream.mk (mkPosition (Fin la) (Fin lo))
               (mn + Math.trunc (Fin (src (3 + c)%nat) * Math.abs (mx - mn)))%js,
             (4 + c)%nat).
Proof. apply randomStream_valid. exact USA_OUTER_valid. Qed.

End RegionSampling.

(** ** The loop of the returned closure, particle by particle *)

Section Simulator.

Variable src : RandomSource.
Variable u : Update.
Variable interpolator : Interpolator.

Lemma updateBody_step (done rest : list Stream.t) (s : Stream.t)
    (ds : list Delta) (c : nat) :
  updateBody src u interpolator (length done) (done ++ s :: rest, ds) c =
  match processStream src u interpolator s c with
  | Returns ((s', d), c') => Returns ((done ++ s' :: rest, ds ++ [d]), c')
  | Throws e => Throws e
  end.
Proof.
  unfold updateBody, processStream, bind.
  rewrite nth_app_here. fold (needsRespawn s).
  destruct (needsRespawn s).
  - destruct (MultiRect.randomStream src USA_OUTER (minTicks u) (maxTicks u) c)
      as [[fresh c1] | e]; [| reflexivity].
    unfold ret, advect. rewrite setAt_app_here.
    destruct (interpolator (Stream.pos fresh) (tickDuration u)) as [nextPos w].
    simpl. rewrite setAt_app_here. reflexivity.
  - unfold ret, advect.
    destruct (interpolator (Stream.pos s) (tickDuration u)) as [nextPos w].
    simpl. rewrite setAt_app_here. reflexivity.
Qed.

Lemma forM_cons {S : Type} (i : nat) (l : list nat) (body : nat -> S -> M S)
    (s : S) (c : nat) :
  forM (i :: l) body s c =
  match body i s c with
  | Returns (s', c') => forM l body s' c'
  | Throws e => Throws e
  end.
Proof. reflexivity. Qed.

Lemma processAll_cons (s : Stream.t) (l : list Stream.t) (c : nat) :
  processAll src u interpolator (s :: l) c =
  match processStream src u interpolator s c with
  | Returns (r, c1) =>
      match processAll src u interpolator l c1 with
      | Returns (rs, c2) => Returns ((fst r :: fst rs, snd r :: snd rs), c2)
      | Throws e => Throws e
      end
  | Throws e => Throws e
  end.
Proof.
  simpl. unfold bind.
  destruct (processStream src u interpolator s c) as [[r c1] | e]; reflexivity.
Qed.

Lemma forM_processAll (rest : list Stream.t) :
  forall (done : list Stream.t) (ds : list Delta) (c : nat),
    forM (seq (length done) (length rest)) (updateBody src u interpolator)
         (done ++ rest, ds) c =
    match processAll src u interpolator rest c with
    | Returns ((rest', ds'), c') => Returns ((done ++ rest', ds ++ ds'), c')
    | Throws e => Throws e
    end.
Proof.
  induction rest as [| s rest IH]; intros done ds c.
  - simpl. unfold ret. now rewrite !app_nil_r.
  - cbn [length seq]. rewrite forM_cons, updateBody_step, processAll_cons.
    destruct (processStream src u interpolator s c) as [[[s' d] c1] | e];
      [| reflexivity].
    specialize (IH (done ++ [s']) (ds ++ [d]) c1).
    rewrite length_app, Nat.add_1_r, <- app_assoc in IH. simpl app in IH.
    rewrite IH.
    destruct (processAll src u interpolator rest c1) as [[[rest' ds'] c2] | e];
      [| reflexivity].
    simpl. now rewrite <- !app_assoc.
Qed.

Lemma update_processAll (c : nat) :
  update src u interpolator c =
  match processAll src u interpolator (streams u) c with
  | Returns ((l', ds), c') =>
      Returns ((ds, mkUpdate (tickDuration u) (minTicks u) (maxTicks u) l'), c')
  | Throws e => Throws e
  end.
Proof.
  unfold update, bind.
  pose proof (forM_processAll (streams u) [] [] c) as H. simpl in H. rewrite H.
  destruct (processAll src u interpolator (streams u) c) as [[[l' ds] c'] | e];
    reflexivity.
Qed.

Hypothesis src_range : forall n, 0 <= src n < 1.

(** With draws in [[0, 1)] a particle is always processed to completion:
    a respawned one is replaced by a fresh particle at a finite position,
    which is then advected; any other one is advected as it stands. *)
Lemma processStream_run (s : Stream.t) (c : nat) :
  if needsRespawn s then
    exists la lo,
      let fresh :=
        Stream.mk (mkPosition (Fin la) (Fin lo))
          (minTicks u
           + Math.trunc (Fin (src (3 + c)%nat)
                         * Math.abs (maxTicks u - minTicks u)))%js in
      MultiRect.randomStream src USA_OUTER (minTicks u) (maxTicks u) c
        = Returns (fresh, (4 + c)%nat)
      /\ processStream src u interpolator s c
         = Returns (advect u interpolator fresh, (4 + c)%nat)
  else
    processStream src u interpolator s c = Returns (advect u interpolator s, c).
Proof.
  unfold processStream, bind.
  destruct (needsRespawn s); [| reflexivity].
  destruct (randomStream_USA_OUTER src src_range (minTicks u) (maxTicks u) c)
    as (la & lo & Hrun).
  exists la, lo. cbv zeta. rewrite Hrun. split; reflexivity.
Qed.

Lemma processStream_returns (s : Stream.t) (c : nat) :
  exists r c', processStream src u interpolator s c = Returns (r, c')
               /\ (c <= c')%nat.
Proof.
  pose proof (processStream_run s c) as H.
  destruct (needsRespawn s).
  - destruct H as (la & lo & _ & H). eexists _, _. split; [exact H | lia].
  - eexists _, _. split; [exact H | lia].
Qed.

(** The whole pool is processed to completion, slot by slot: slot [i] of
    the new pool and entry [i] of the output come from processing slot [i]
    of the old pool, at some point [ci] of the draw sequence. *)
Lemma processAll_run (l : list Stream.t) :
  forall c,
  exists l' ds c',
    processAll src u interpolator l c = Returns ((l', ds), c')
    /\ (c <= c')%nat
    /\ length l' = length l
    /\ length ds = length l
    /\ forall i s, nth_error l i = Some s ->
         exists ci s' d ci',
           (c <= ci)%nat /\ (ci' <= c')%nat
           /\ processStream src u interpolator s ci = Returns ((s', d), ci')
           /\ nth_error l' i = Some s'
           /\ nth_error ds i = Some d.
Proof.
  induction l as [| s l IH]; intros c.
  - exists [], [], c. simpl. repeat split; auto.
    intros [| i] s0 H; discriminate.
  - destruct (processStream_returns s c) as ([s' d] & c1 & Hs & Hc1).
    destruct (IH c1) as (l' & ds & c' & Hl & Hc' & Hlen & Hlen' & Hnth).
    exists (s' :: l'), (d :: ds), c'.
    split. { rewrite processAll_cons, Hs, Hl. reflexivity. }
    split; [lia |]. split; [simpl; lia |]. split; [simpl; lia |].
    intros [| i] s0 Hi; simpl in Hi.
    + injection Hi as <-. exists c, s', d, c1. repeat split; auto; lia.
    + destruct (Hnth i s0 Hi) as (ci & s1 & d1 & ci' & ? & ? & ? & ? & ?).
      exists ci, s1, d1, ci'. repeat split; auto; lia.
Qed.

End Simulator.

(** One tick, slot by slot.  With draws in [[0, 1)] the closure returns;
    the pool keeps its size, the output has one entry per slot, and slot
    [i] is either advected as it stands or, when the respawn test holds,
    replaced by a fresh particle that is then advected. *)
Lemma update_slots (src : RandomSource) (u : Update)
    (interpolator : Interpolator) (c : nat) :
  (forall n, 0 <= src n < 1) ->
  exists ds l' c',
    update src u interpolator c =
      Returns ((ds, mkUpdate (tickDuration u) (minTicks u) (maxTicks u) l'), c')
    /\ (c <= c')%nat
    /\ length l' = length (streams u)
    /\ length ds = length (streams u)
    /\ forall i s, nth_error (streams u) i = Some s ->
         (needsRespawn s = false ->
            nth_error l' i = Some (fst (advect u interpolator s))
            /\ nth_error ds i = Some (snd (advect u interpolator s)))
         /\ (needsRespawn s = true ->
             exists fresh cf,
               (c <= cf)%nat /\ (4 + cf <= c')%nat
               /\ MultiRect.randomStream src USA_OUTER (minTicks u) (maxTicks u) cf
                  = Returns (fresh, (4 + cf)%nat)
               /\ finitePosition (Stream.pos fresh) = true
               /\ nth_error l' i = Some (fst (advect u interpolator fresh))
               /\ nth_error ds i = Some (snd (advect u interpolator fresh))).
Proof.
  intros Hsrc.
  destruct (processAll_run src u interpolator Hsrc (streams u) c)
    as (l' & ds & c' & Hrun & Hc & Hl & Hd & Hslot).
  exists ds, l', c'. rewrite update_processAll, Hrun.
  repeat (split; [assumption || reflexivity |]).
  intros i s Hi.
  destruct (Hslot i s Hi) as (ci & s' & d & ci' & Hci & Hci' & Hp & Hs' & Hd').
  pose proof (processStream_run src u interpolator Hsrc s ci) as Hps.
  split; intros Hr; rewrite Hr in Hps.
  - assert (Heq : (s', d) = advect u interpolator s) by congruence.
    rewrite <- Heq. auto.
  - destruct Hps as (la & lo & Hfresh & Hps). cbv zeta in Hfresh.
    match type of Hfresh with _ = Returns (?f, _) => set (fresh := f) in * end.
    assert (Heq : (s', d) = advect u interpolator fresh) by congruence.
    assert (Hcf : ci' = (4 + ci)%nat) by congruence.
    exists fresh, ci. rewrite <- Heq.
    repeat split; [exact Hci | lia | exact Hfresh | auto ..].
Qed.

Lemma processStream_respawned (src : RandomSource) (u : Update)
    (interpolator : Interpolator) (s s2 : Stream.t) (c : nat) :
  needsRespawn s = true -> needsRespawn s2 = true ->
  processStream src u interpolator s2 c = processStream src u interpolator s c.
Proof. intros H H2. unfold processStream. now rewrite H, H2. Qed.

Lemma processAll_respawned (src : RandomSource) (u : Update)
    (interpolator : Interpolator) (l : list Stream.t) :
  forall (i : nat) (s s2 : Stream.t) (c : nat),
    nth_error l i = Some s ->
    needsRespawn s = true -> needsRespawn s2 = true ->
    processAll src u interpolator (setAt l i s2) c
    = processAll src u interpolator l c.
Proof.
  induction l as [| h t IH]; intros [| i] s s2 c Hi Hs Hs2; try discriminate.
  - injection Hi as ->. cbn [setAt]. rewrite !processAll_cons.
    now rewrite (processStream_respawned src u interpolator s s2).
  - cbn [setAt]. rewrite !processAll_cons.
    destruct (processStream src u interpolator h c) as [[r c1] | e]; [| reflexivity].
    now rewrite (IH i s s2 c1 Hi Hs Hs2).
Qed.

Lemma length_replicateM {A : Type} (m : M A) (n : nat) :
  forall (c c' : nat) (l : list A),
    replicateM n m c = Returns (l, c') -> length l = n.
Proof.
  induction n as [| n IH]; intros c c' l H; simpl in H.
  - injection H as <- _. reflexivity.
  - unfold bind in H. destruct (m c) as [[x c1] | e]; [| discriminate].
    destruct (replicateM n m c1) as [[xs c2] | e] eqn:Hxs; [| discriminate].
    injection H as <- _. simpl. f_equal. eapply IH. exact Hxs.
Qed.

(** The pool [makeUpdate] builds has the configured size. *)
Lemma makeUpdate_pool_size (src : RandomSource) (numPoints : Z)
    (maxWindow tickDuration0 : number) (c c' : nat) (u : Update) :
  makeUpdate src numPoints maxWindow tickDuration0 c = Returns (u, c') ->
  length (streams u) = Z.to_nat numPoints.
Proof.
  unfold makeUpdate.
  destruct ((numPoints <? 0)%Z || (4294967295 <? numPoints)%Z); [discriminate |].
  unfold bind.
  destruct (replicateM _ _ c) as [[l c1] | e] eqn:Hl; [| discriminate].
  intros H. injection H as <- _. simpl. eapply length_replicateM. exact Hl.
Qed.

Lemma replicateM_returns {A : Type} (m : M A) :
  (forall c, exists x, exists c', m c = Returns (x, c')) ->
  forall n c, exists l, exists c', replicateM n m c = Returns (l, c').
Proof.
  intros Hm. induction n as [| n IH]; intros c.
  - exists [], c. reflexivity.
  - destruct (Hm c) as (x & c1 & Hx). destruct (IH c1) as (l & c2 & Hl).
    exists (x :: l), c2. simpl. unfold bind. now rewrite Hx, Hl.
Qed.

(** With draws in [[0, 1)] and a valid array length, [makeUpdate] returns
    a pool of the configured size; a tick on it returns as many segments. *)
Lemma configured_pool_ticks (src : RandomSource) (numPoints : Z)
    (maxWindow tickDuration0 : number) (interpolator : Interpolator) (c : nat) :
  (forall n, 0 <= src n < 1) ->
  (0 <= numPoints <= 4294967295)%Z ->
  exists u c1 ds u' c2,
    makeUpdate src numPoints maxWindow tickDuration0 c = Returns (u, c1)
    /\ length (streams u) = Z.to_nat numPoints
    /\ update src u interpolator c1 = Returns ((ds, u'), c2)
    /\ length ds = Z.to_nat numPoints
    /\ length (streams u') = Z.to_nat numPoints.
Proof.
  intros Hsrc Hn.
  assert (Hmk : exists u c1,
             makeUpdate src numPoints maxWindow tickDuration0 c = Returns (u, c1)).
  { unfold makeUpdate.
    replace ((numPoints <? 0)%Z || (4294967295 <? numPoints)%Z) with false
      by (symmetry; apply orb_false_iff; split; apply Z.ltb_ge; lia).
    unfold bind.
    destruct (replicateM_returns
                (MultiRect.randomStream src USA_OUTER
                   (minTicksOf (maxTicksOf maxWindow tickDuration0))
                   (maxTicksOf maxWindow tickDuration0))
                (fun c0 =>
                   match randomStream_USA_OUTER src Hsrc _ _ c0 with
                   | ex_intro _ la (ex_intro _ lo H) =>
                       ex_intro _ _ (ex_intro _ _ H)
                   end)
                (Z.to_nat numPoints) c) as (l & c1 & Hl).
    rewrite Hl. eexists _, _. reflexivity. }
  destruct Hmk as (u & c1 & Hmk).
  pose proof (makeUpdate_pool_size _ _ _ _ _ _ _ Hmk) as Hsize.
  destruct (update_slots src u interpolator c1 Hsrc)
    as (ds & l' & c2 & Hrun & _ & Hl & Hd & _).
  exists u, c1, ds, (mkUpdate (tickDuration u) (minTicks u) (maxTicks u) l'), c2.
  repeat split; [exact Hmk | exact Hsize | exact Hrun | lia | simpl; lia].
Qed.


(** ** Example inputs *)

Lemma halfDraws_range : forall n, 0 <= halfDraws n < 1.
Proof. intros n. unfold halfDraws. lra. Qed.

Lemma kansas_in_USA_OUTER : MultiRect.contains USA_OUTER kansas = true.
Proof.
  unfold MultiRect.contains, USA_OUTER, MultiRect.make.
  cbn [MultiRect.rects existsb]. apply orb_true_iff. left.
  unfold corners, Rect.new, Rect.contains, kansas. simpl.
  rewrite !andb_true_iff, !Rltb_spec.
  unfold Rmin, Rmax. repeat destruct (Rle_dec _ _); lra.
Qed.

(** ** The particle life cycle *)

(** C6.  For every pool of size [count], every interpolator (the one built
    from no report included) and every tick, the closure returns a list of
    exactly [count] segments and a pool of [count] particles, and entry [i]
    of the list belongs to the particle of slot [i]: it ends at that
    particle's new position, and starts at its old position unless the
    particle was respawned. *)
Theorem update_output_follows_pool (src : RandomSource) (u : Update)
    (interpolator : Interpolator) (count c : nat) :
  (forall n, 0 <= src n < 1) ->
  length (streams u) = count ->
  exists ds u' c',
    update src u interpolator c = Returns ((ds, u'), c')
    /\ length ds = count
    /\ length (streams u') = count
    /\ forall i, (i < count)%nat ->
         exists s s' prevPos,
           nth_error (streams u) i = Some s
           /\ nth_error (streams u') i = Some s'
           /\ nth_error ds i = Some (prevPos, Stream.pos s')
           /\ (needsRespawn s = false -> prevPos = Stream.pos s).
Proof.
  intros Hsrc Hcount.
  destruct (update_slots src u interpolator c Hsrc)
    as (ds & l' & c' & Hrun & _ & Hl & Hd & Hslot).
  exists ds, (mkUpdate (tickDuration u) (minTicks u) (maxTicks u) l'), c'.
  split; [exact Hrun |]. split; [lia |]. split; [simpl; lia |].
  intros i Hi.
  destruct (nth_error (streams u) i) as [s |] eqn:Hs.
  2:{ apply nth_error_None in Hs. lia. }
  destruct (Hslot i s Hs) as [Hkeep Hre].
  destruct (needsRespawn s) eqn:Hr.
  - destruct (Hre eq_refl) as (fresh & cf & _ & _ & _ & _ & Hl' & Hd').
    exists s, (fst (advect u interpolator fresh)), (Stream.pos fresh).
    split; [reflexivity |]. split; [exact Hl' |]. split; [exact Hd' | congruence].
  - destruct (Hkeep eq_refl) as [Hl' Hd'].
    exists s, (fst (advect u interpolator s)), (Stream.pos s).
    split; [reflexivity |]. split; [exact Hl' |]. split; [exact Hd' | reflexivity].
Qed.

Lemma update_output_follows_pool_witness :
  exists ds u' c',
    update halfDraws (poolOfOne 3) emptyInterpolator 0%nat = Returns ((ds, u'), c')
    /\ length ds = 1%nat /\ length (streams u') = 1%nat.
Proof.
  destruct (update_output_follows_pool halfDraws (poolOfOne 3) emptyInterpolator
              1 0 halfDraws_range eq_refl)
    as (ds & u' & c' & Hrun & Hd & Hl & _).
  exists ds, u', c'. repeat split; assumption.
Defined.

(** C5.  The respawn test comes first in a particle's processing, before
    advection.  A particle inside the region with [ttl = 1] is advected
    from its own position by the tick that brings its [ttl] to 0, and is
    not replaced by that tick; the next tick replaces it by a freshly drawn
    particle, advects that fresh particle with the interpolator of that
    tick, and decrements the fresh [ttl]. *)
Theorem respawn_on_the_next_tick (src : RandomSource) (u : Update)
    (interp1 interp2 : Interpolator) (c i : nat) (s : Stream.t) :
  (forall n, 0 <= src n < 1) ->
  nth_error (streams u) i = Some s ->
  Stream.ttl s = Fin 1 ->
  MultiRect.contains USA_OUTER (Stream.pos s) = true ->
  exists ds1 u1 c1 ds2 u2 c2 fresh cf,
    (* the tick that decrements the ttl to 0 *)
    update src u interp1 c = Returns ((ds1, u1), c1)
    /\ nth_error (streams u1) i
       = Some (Stream.mk (fst (interp1 (Stream.pos s) (tickDuration u))) (Fin 0))
    /\ nth_error ds1 i
       = Some (Stream.pos s, fst (interp1 (Stream.pos s) (tickDuration u)))
    (* the next tick *)
    /\ update src u1 interp2 c1 = Returns ((ds2, u2), c2)
    /\ (c1 <= cf)%nat /\ (4 + cf <= c2)%nat
    /\ MultiRect.randomStream src USA_OUTER (minTicks u) (maxTicks u) cf
       = Returns (fresh, (4 + cf)%nat)
    /\ nth_error (streams u2) i
       = Some (Stream.mk (fst (interp2 (Stream.pos fresh) (tickDuration u)))
                         (Stream.ttl fresh - Fin 1)%js)
    /\ nth_error ds2 i
       = Some (Stream.pos fresh, fst (interp2 (Stream.pos fresh) (tickDuration u))).
Proof.
  intros Hsrc Hi Httl Hin.
  destruct (update_slots src u interp1 c Hsrc)
    as (ds1 & l1 & c1 & Hrun1 & _ & _ & _ & Hslot1).
  set (u1 := mkUpdate (tickDuration u) (minTicks u) (maxTicks u) l1) in *.
  destruct (update_slots src u1 interp2 c1 Hsrc)
    as (ds2 & l2 & c2 & Hrun2 & _ & _ & _ & Hslot2).
  assert (Hkeep : needsRespawn s = false).
  { unfold needsRespawn. rewrite Httl, Hin. simpl. now rewrite Rleb_false by lra. }
  destruct (Hslot1 i s Hi) as [Hs1 _]. destruct (Hs1 Hkeep) as [Hl1 Hd1].
  unfold advect in Hl1, Hd1. cbn [fst snd] in Hl1, Hd1.
  rewrite Httl in Hl1. cbn [Num.sub] in Hl1.
  replace (1 - 1) with 0 in Hl1 by lra.
  set (s1 := Stream.mk (fst (interp1 (Stream.pos s) (tickDuration u))) (Fin 0)) in *.
  assert (Hgo : needsRespawn s1 = true).
  { unfold needsRespawn, s1. simpl. now rewrite Rleb_true by lra. }
  destruct (Hslot2 i s1 Hl1) as [_ Hs2].
  destruct (Hs2 Hgo) as (fresh & cf & Hcf & Hcf' & Hfresh & _ & Hl2 & Hd2).
  exists ds1, u1, c1, ds2,
    (mkUpdate (tickDuration u1) (minTicks u1) (maxTicks u1) l2), c2, fresh, cf.
  repeat split; assumption.
Qed.

Lemma respawn_on_the_next_tick_witness :
  exists ds1 u1 c1 ds2 u2 c2,
    update halfDraws (poolOfOne 1) emptyInterpolator 0%nat = Returns ((ds1, u1), c1)
    /\ update halfDraws u1 emptyInterpolator c1 = Returns ((ds2, u2), c2)
    /\ (4 + c1 <= c2)%nat.
Proof.
  destruct (respawn_on_the_next_tick halfDraws (poolOfOne 1)
              emptyInterpolator emptyInterpolator 0 0 (Stream.mk kansas (Fin 1))
              halfDraws_range eq_refl eq_refl kansas_in_USA_OUTER)
    as (ds1 & u1 & c1 & ds2 & u2 & c2 & fresh & cf & H1 & _ & _ & H2 & Hc & Hc' & _).
  exists ds1, u1, c1, ds2, u2, c2. repeat split; [exact H1 | exact H2 | lia].
Defined.

(** C10.  A particle that is respawned during a tick (its [ttl <= 0], or
    its position outside the region, when its processing starts) is
    reported by the segment that starts at the freshly drawn position and
    ends where the interpolator takes that position.  The state it had
    before the respawn does not reach the output: the tick returns the same
    segments, the same pool and makes the same draws whatever that state
    was. *)
Theorem respawned_segment_starts_fresh (src : RandomSource) (u : Update)
    (interpolator : Interpolator) (c i : nat) (s : Stream.t) :
  (forall n, 0 <= src n < 1) ->
  nth_error (streams u) i = Some s ->
  needsRespawn s = true ->
  (exists ds u' c' fresh cf,
     update src u interpolator c = Returns ((ds, u'), c')
     /\ (c <= cf)%nat /\ (4 + cf <= c')%nat
     /\ MultiRect.randomStream src USA_OUTER (minTicks u) (maxTicks u) cf
        = Returns (fresh, (4 + cf)%nat)
     /\ nth_error ds i
        = Some (Stream.pos fresh,
                fst (interpolator (Stream.pos fresh) (tickDuration u)))
     /\ nth_error (streams u') i
        = Some (Stream.mk (fst (interpolator (Stream.pos fresh) (tickDuration u)))
                          (Stream.ttl fresh - Fin 1)%js))
  /\ forall s2, needsRespawn s2 = true ->
       update src (mkUpdate (tickDuration u) (minTicks u) (maxTicks u)
                            (setAt (streams u) i s2)) interpolator c
       = update src u interpolator c.
Proof.
  intros Hsrc Hi Hs. split.
  - destruct (update_slots src u interpolator c Hsrc)
      as (ds & l' & c' & Hrun & _ & _ & _ & Hslot).
    destruct (Hslot i s Hi) as [_ Hre].
    destruct (Hre Hs) as (fresh & cf & Hcf & Hcf' & Hfresh & _ & Hl' & Hd').
    exists ds, (mkUpdate (tickDuration u) (minTicks u) (maxTicks u) l'), c', fresh, cf.
    repeat split; assumption.
  - intros s2 Hs2. rewrite !update_processAll. cbn [streams tickDuration minTicks maxTicks].
    assert (Hp : forall l c0,
               processAll src (mkUpdate (tickDuration u) (minTicks u) (maxTicks u)
                                        (setAt (streams u) i s2)) interpolator l c0
               = processAll src u interpolator l c0).
    { induction l as [| h t IH]; intros c0; [reflexivity |].
      rewrite !processAll_cons.
      change (processStream src _ interpolator h c0)
        with (processStream src u interpolator h c0).
      destruct (processStream src u interpolator h c0) as [[r c1] | e];
        [| reflexivity].
      now rewrite IH. }
    rewrite Hp, (processAll_respawned src u interpolator (streams u) i s s2 c Hi Hs Hs2).
    reflexivity.
Qed.

Lemma respawned_segment_starts_fresh_witness :
  exists ds u' c',
    update halfDraws (poolOfOne 0) emptyInterpolator 0%nat = Returns ((ds, u'), c')
    /\ update halfDraws (poolOfOne (-1)) emptyInterpolator 0%nat = Returns ((ds, u'), c').
Proof.
  assert (H0 : needsRespawn (Stream.mk kansas (Fin 0)) = true).
  { unfold needsRespawn. simpl. now rewrite Rleb_true by lra. }
  assert (H1 : needsRespawn (Stream.mk kansas (Fin (-1))) = true).
  { unfold needsRespawn. simpl. now rewrite Rleb_true by lra. }
  destruct (respawned_segment_starts_fresh halfDraws (poolOfOne 0)
              emptyInterpolator 0 0 (Stream.mk kansas (Fin 0))
              halfDraws_range eq_refl H0)
    as [(ds & u' & c' & fresh & cf & Hrun & _) Hsame].
  exists ds, u', c'. split; [exact Hrun |].
  rewrite <- Hrun. exact (Hsame (Stream.mk kansas (Fin (-1))) H1).
Defined.

(** ** GeoMath *)

Lemma hav_Fin (x : R) : hav (Fin x) = Fin ((1 - cos x) / 2).
Proof. unfold hav. simpl Math.cos. simpl Num.sub. apply div_Fin. lra. Qed.

Lemma clamp_range (z : R) : -1 <= Rmin 1 (Rmax (-1) z) <= 1.
Proof. unfold Rmin, Rmax. repeat destruct (Rle_dec _ _); lra. Qed.

Lemma invHav_Fin (x : R) :
  invHav (Fin x) = Fin (acos (Rmin 1 (Rmax (-1) (1 - 2 * x)))).
Proof.
  unfold invHav. simpl.
  destruct (clamp_range (1 - 2 * x)) as [Hlo Hhi].
  now rewrite (Rleb_true _ _ Hlo), (Rleb_true _ _ Hhi).
Qed.

Lemma haversineDist_Fin (lat1 lon1 lat2 lon2 : R) :
  haversineDist (mkPosition (Fin lat1) (Fin lon1)) (mkPosition (Fin lat2) (Fin lon2))
  = Fin (acos (Rmin 1 (Rmax (-1) (1 - 2 * havTheta lat1 lon1 lat2 lon2)))).
Proof.
  unfold haversineDist. cbn [lat lon Num.sub].
  rewrite !radians_Fin, !hav_Fin. cbn [Math.cos Num.mul Num.add].
  apply invHav_Fin.
Qed.

Lemma havTheta_sym (lat1 lon1 lat2 lon2 : R) :
  havTheta lat1 lon1 lat2 lon2 = havTheta lat2 lon2 lat1 lon1.
Proof.
  unfold havTheta.
  replace ((lat1 - lat2) * PI / 180) with (- ((lat2 - lat1) * PI / 180)) by lra.
  replace ((lon1 - lon2) * PI / 180) with (- ((lon2 - lon1) * PI / 180)) by lra.
  rewrite !cos_neg. ring.
Qed.

Lemma havTheta_diag (lat1 lon1 : R) : havTheta lat1 lon1 lat1 lon1 = 0.
Proof.
  unfold havTheta.
  replace ((lat1 - lat1) * PI / 180) with 0 by lra.
  replace ((lon1 - lon1) * PI / 180) with 0 by lra.
  rewrite cos_0. lra.
Qed.

Lemma finitePosition_inv (p : Position) :
  finitePosition p = true -> exists la lo, p = mkPosition (Fin la) (Fin lo).
Proof.
  destruct p as [[la | | |] [lo | | |]]; try discriminate. intros _. now exists la, lo.
Qed.

(** C8.  For finite positions the great-circle distance of a position to
    itself is 0, the distance is symmetric, and it lies in [[0, PI]]. *)
Theorem haversineDist_zero_symmetric_bounded (a b : Position) :
  finitePosition a = true ->
  finitePosition b = true ->
  haversineDist a a = Fin 0
  /\ haversineDist a b = haversineDist b a
  /\ exists d, haversineDist a b = Fin d /\ 0 <= d <= PI.
Proof.
  intros Ha Hb.
  destruct (finitePosition_inv a Ha) as (la & lo & ->).
  destruct (finitePosition_inv b Hb) as (lb & lob & ->).
  rewrite !haversineDist_Fin. split; [| split].
  - rewrite havTheta_diag. f_equal.
    replace (1 - 2 * 0) with 1 by lra.
    rewrite Rmax_right by lra. rewrite Rmin_left by lra. apply acos_1.
  - now rewrite (havTheta_sym la lo lb lob).
  - eexists. split; [reflexivity | apply acos_bound].
Qed.

Lemma haversineDist_zero_symmetric_bounded_witness :
  haversineDist kansas kansas = Fin 0
  /\ haversineDist kansas (mkPosition (Fin 29.11) (Fin (-81.394)))
     = haversineDist (mkPosition (Fin 29.11) (Fin (-81.394))) kansas.
Proof.
  destruct (haversineDist_zero_symmetric_bounded kansas
              (mkPosition (Fin 29.11) (Fin (-81.394))) eq_refl eq_refl)
    as (H0 & Hsym & _).
  split; assumption.
Defined.

(** ** Spawn lifetime bounds *)

Lemma Int_part_nonneg (x : R) : 0 <= x -> (0 <= Int_part x)%Z.
Proof.
  intros Hx. destruct (base_Int_part x) as [_ H].
  assert (Hlt : -1 < IZR (Int_part x)) by lra.
  apply lt_IZR in Hlt. lia.
Qed.

Lemma trunc_floor_nonneg (a : number) :
  (Fin 0 <=? a)%js = true -> Math.trunc a = Math.floor a.
Proof.
  destruct a as [x | | |]; simpl; try reflexivity.
  intros H. unfold Math.Ztrunc. now rewrite H.
Qed.

(** C9 (as the code has it).  The spawn lifetime bounds are derived from
    the configured window and tick duration alone:
    [maxTicks = min(10, trunc(window / tick))] and
    [minTicks = min(5, trunc(0.7 * maxTicks))], where [trunc] rounds toward
    zero.  Whenever the quotient [window / tick] is not negative, this is
    the [floor] of the formula. *)
Theorem spawn_bounds_derived (src : RandomSource) (numPoints : Z)
    (maxWindow tickDuration0 : number) (c c' : nat) (u : Update) :
  makeUpdate src numPoints maxWindow tickDuration0 c = Returns (u, c') ->
  tickDuration u = tickDuration0
  /\ maxTicks u = Math.min (Fin 10) (Math.trunc (maxWindow / tickDuration0)%js)
  /\ minTicks u = Math.min (Fin 5) (Math.trunc (Fin 0.7 * maxTicks u)%js)
  /\ ((Fin 0 <=? maxWindow / tickDuration0)%js = true ->
      maxTicks u = Math.min (Fin 10) (Math.floor (maxWindow / tickDuration0)%js)
      /\ minTicks u = Math.min (Fin 5) (Math.floor (Fin 0.7 * maxTicks u)%js)).
Proof.
  unfold makeUpdate.
  destruct ((numPoints <? 0)%Z || (4294967295 <? numPoints)%Z); [discriminate |].
  unfold bind.
  destruct (replicateM _ _ c) as [[l c1] | e]; [| discriminate].
  intros H. injection H as <- _. cbn [tickDuration maxTicks minTicks].
  unfold maxTicksOf, minTicksOf.
  split; [reflexivity |]. split; [reflexivity |]. split; [reflexivity |].
  intros Hq. rewrite (trunc_floor_nonneg _ Hq). split; [reflexivity |].
  f_equal. apply trunc_floor_nonneg.
  destruct (maxWindow / tickDuration0)%js as [q | | |]; try discriminate.
  - simpl in Hq. apply Rleb_spec in Hq. simpl. apply Rleb_true.
    pose proof (Int_part_nonneg q Hq) as Hz. apply IZR_le in Hz.
    unfold Rmin. destruct (Rle_dec _ _); lra.
  - simpl. apply Rleb_true. lra.
Qed.

Lemma spawn_bounds_derived_witness :
  exists u, makeUpdate halfDraws 0 (Fin 168) (Fin 0.5) 0%nat = Returns (u, 0%nat)
            /\ maxTicks u = Math.min (Fin 10) (Math.trunc (Fin 168 / Fin 0.5)%js).
Proof.
  exists (mkUpdate (Fin 0.5) (minTicksOf (maxTicksOf (Fin 168) (Fin 0.5)))
                   (maxTicksOf (Fin 168) (Fin 0.5)) []).
  split; [reflexivity |].
  exact (proj1 (proj2 (spawn_bounds_derived halfDraws 0 (Fin 168) (Fin 0.5)
                         0 0 _ eq_refl))).
Defined.

Lemma Int_part_half : Int_part (1 / 2) = 0%Z.
Proof. symmetry. apply Int_part_spec. simpl. lra. Qed.

Lemma Int_part_minus_half : Int_part (- (1 / 2)) = (-1)%Z.
Proof. symmetry. apply Int_part_spec. simpl. lra. Qed.

(** C9, as stated with [floor], fails for a negative quotient: with
    [window = -1] and [tick = 2] the code computes [maxTicks = 0], and the
    formula with [floor] gives [-1]. *)
Lemma spawn_bounds_not_floor :
  exists u,
    makeUpdate halfDraws 0 (Fin (-1)) (Fin 2) 0%nat = Returns (u, 0%nat)
    /\ maxTicks u = Fin 0
    /\ Math.min (Fin 10) (Math.floor (Fin (-1) / Fin 2)%js) = Fin (-1)
    /\ maxTicks u <> Math.min (Fin 10) (Math.floor (Fin (-1) / Fin 2)%js).
Proof.
  assert (Hq : (Fin (-1) / Fin 2)%js = Fin (- (1 / 2))).
  { rewrite div_Fin by lra. f_equal. lra. }
  assert (Hmax : maxTicksOf (Fin (-1)) (Fin 2) = Fin 0).
  { unfold maxTicksOf. rewrite Hq. simpl. unfold Math.Ztrunc.
    rewrite Rleb_false by lra.
    replace (- - (1 / 2)) with (1 / 2) by lra. rewrite Int_part_half. simpl.
    f_equal. apply Rmin_right. lra. }
  assert (Hfloor : Math.min (Fin 10) (Math.floor (Fin (-1) / Fin 2)%js) = Fin (-1)).
  { rewrite Hq. simpl. rewrite Int_part_minus_half. f_equal. apply Rmin_right. lra. }
  exists (mkUpdate (Fin 2) (minTicksOf (maxTicksOf (Fin (-1)) (Fin 2)))
                   (maxTicksOf (Fin (-1)) (Fin 2)) []).
  split; [reflexivity |]. cbn [maxTicks]. rewrite Hmax, Hfloor.
  repeat split. intros H. injection H as H. lra.
Qed.

(** ** Region sampling *)

Lemma proper_areas (rs : list Rect.t) :
  Forall Rect_proper rs ->
  exists l, map Rect.area rs = map Fin l /\ Forall (fun a => 0 < a) l.
Proof.
  induction 1 as [| r rs (b & t & lf & rr & -> & Hb & Hl) _ (l & Hmap & Hpos)].
  - exists []. split; constructor.
  - exists ((t - b) * (rr - lf) :: l). split.
    + simpl. now rewrite Hmap.
    + constructor; [nra | assumption].
Qed.

Lemma Forall_pos_nonneg (l : list R) :
  Forall (fun a => 0 < a) l -> Forall (fun a => 0 <= a) l.
Proof. apply Forall_impl. intros a H. lra. Qed.

(** C7 (as the code has it).  On a region built from a non-empty list of
    rects with [bottom < top] and [left < right], and for draws in
    [[0, 1)]: [random] draws the weight [w = u * totalArea] in
    [[0, totalArea)], never reaches its [throw], and returns the point that
    [Rect.random] draws (from the next two draws) in the first rect whose
    cumulative area is at least [w].  That point is finite and lies in the
    closed box [bottom <= lat <= top], [left <= lon <= right] of that rect.
    It passes the strict [contains] test of the region whenever it is on
    none of the four edges of that rect; nothing more is promised, as a
    point placed on an edge need not be contained. *)
Theorem random_point_of_first_rect (src : RandomSource) (first : Rect.t)
    (rest : list Rect.t) (c : nat) :
  (forall n, 0 <= src n < 1) ->
  Forall Rect_proper (first :: rest) ->
  let m := MultiRect.make first rest in
  let w := (Fin (src c) * MultiRect.totalArea m)%js in
  exists T k rect la lo,
    MultiRect.totalArea m = Fin T /\ w = Fin (src c * T) /\ 0 <= src c * T < T
    /\ nth_error (MultiRect.rects m) k = Some rect
    /\ (w <=? thresholdAt (MultiRect.rects m) k)%js = true
    /\ (forall j, (j < k)%nat ->
          (w <=? thresholdAt (MultiRect.rects m) j)%js = false)
    /\ MultiRect.random src m c
       = Returns (mkPosition (Fin la) (Fin lo), (3 + c)%nat)
    /\ Rect.random src rect (S c)
       = Returns (mkPosition (Fin la) (Fin lo), (3 + c)%nat)
    /\ (Rect.bottom rect <=? Fin la)%js = true
    /\ (Fin la <=? Rect.top rect)%js = true
    /\ (Rect.left rect <=? Fin lo)%js = true
    /\ (Fin lo <=? Rect.right rect)%js = true
    /\ (Fin la <> Rect.bottom rect -> Fin la <> Rect.top rect ->
        Fin lo <> Rect.left rect -> Fin lo <> Rect.right rect ->
        MultiRect.contains m (mkPosition (Fin la) (Fin lo)) = true).
Proof.
  intros Hsrc Hp m w.
  assert (Hv : Forall Rect_valid (first :: rest)).
  { eapply Forall_impl; [| exact Hp]. apply Rect_proper_valid. }
  destruct (random_valid src Hsrc first rest c Hv)
    as (k & rect & Hnth & Hle & Hlt & Hrun).
  fold m in Hnth, Hle, Hlt, Hrun. fold w in Hle, Hlt.
  destruct (proper_areas _ Hp) as (l & Hmap & Hpos).
  destruct l as [| a0 l']; [discriminate |].
  simpl in Hmap. injection Hmap as Ha0 Hrest.
  inversion Hpos as [| ? ? Ha0pos Hpos']; subst.
  set (T := fold_left Rplus l' a0).
  assert (HT : MultiRect.totalArea m = Fin T).
  { unfold m, MultiRect.make. simpl MultiRect.totalArea.
    rewrite Ha0, Hrest. apply fold_add_Fin. }
  assert (HT0 : 0 < T).
  { pose proof (fold_Rplus_ge l' a0 (Forall_pos_nonneg _ Hpos')). unfold T. lra. }
  assert (Hrect : Rect_proper rect).
  { apply nth_error_In in Hnth. rewrite Forall_forall in Hp. now apply Hp. }
  destruct Hrect as (b & t & lf & rr & -> & Hb & Hl).
  pose proof (Hsrc c) as Hu. pose proof (Hsrc (S c)) as Hu1.
  pose proof (Hsrc (S (S c))) as Hu2.
  exists T, k, (Rect.mk (Fin b) (Fin t) (Fin lf) (Fin rr) (Fin ((t - b) * (rr - lf)))),
    (b + (t - b) * src (S c)), (lf + (rr - lf) * src (S (S c))).
  split; [exact HT |].
  split; [unfold w; rewrite HT; reflexivity |].
  split; [nra |].
  split; [exact Hnth |]. split; [exact Hle |]. split; [exact Hlt |].
  split; [rewrite Hrun; reflexivity |].
  split; [reflexivity |].
  cbn [Rect.bottom Rect.top Rect.left Rect.right Num.leb Num.ltb].
  split; [apply Rleb_true; nra |]. split; [apply Rleb_true; nra |].
  split; [apply Rleb_true; nra |]. split; [apply Rleb_true; nra |].
  intros H1 H2 H3 H4. unfold MultiRect.contains. apply existsb_exists.
  eexists. split; [eapply nth_error_In; exact Hnth |].
  unfold Rect.contains.
  cbn [Rect.bottom Rect.top Rect.left Rect.right Num.ltb lat lon].
  rewrite !andb_true_iff, !Rltb_spec.
  assert (b + (t - b) * src (S c) <> b) by congruence.
  assert (b + (t - b) * src (S c) <> t) by congruence.
  assert (lf + (rr - lf) * src (S (S c)) <> lf) by congruence.
  assert (lf + (rr - lf) * src (S (S c)) <> rr) by congruence.
  repeat split; nra.
Qed.

Lemma unit_rect :
  corners 0 0 1 1 = Rect.mk (Fin 0) (Fin 1) (Fin 0) (Fin 1) (Fin ((1 - 0) * (1 - 0))).
Proof.
  unfold corners, Rect.new. simpl.
  rewrite Rmin_left, Rmax_right by lra. reflexivity.
Qed.

Lemma unit_rect_proper : Forall Rect_proper [corners 0 0 1 1].
Proof. constructor; [| constructor]. apply corners_proper; lra. Qed.

Lemma strip_rect :
  corners 0 1 1 3 = Rect.mk (Fin 0) (Fin 1) (Fin 1) (Fin 3) (Fin ((1 - 0) * (3 - 1))).
Proof.
  unfold corners, Rect.new. simpl.
  rewrite !Rmin_left, !Rmax_right by lra. reflexivity.
Qed.

Lemma two_rects_proper : Forall Rect_proper [corners 0 0 1 1; corners 0 1 1 3].
Proof. repeat (constructor; [apply corners_proper; lra |]). constructor. Qed.

Lemma random_point_of_first_rect_witness :
  exists la lo,
    MultiRect.random halfDraws
      (MultiRect.make (corners 0 0 1 1) [corners 0 1 1 3]) 0%nat
    = Returns (mkPosition (Fin la) (Fin lo), 3%nat)
    /\ 0 <= la <= 1 /\ 1 <= lo <= 3.
Proof.
  destruct (random_point_of_first_rect halfDraws (corners 0 0 1 1)
              [corners 0 1 1 3] 0 halfDraws_range two_rects_proper)
    as (T & k & rect & la & lo & _ & _ & _ & Hnth & Hle & _ & Hrun & _
        & Hb & Ht & Hl & Hr & _).
  exists la, lo. split; [exact Hrun |].
  cbn [MultiRect.rects MultiRect.make] in Hnth, Hle.
  rewrite unit_rect, strip_rect in Hnth, Hle.
  destruct k as [| [| k]].
  - exfalso. revert Hle. unfold thresholdAt, halfDraws. simpl.
    rewrite Rleb_false by lra. discriminate.
  - injection Hnth as <-.
    cbn [Rect.bottom Rect.top Rect.left Rect.right Num.leb] in Hb, Ht, Hl, Hr.
    rewrite Rleb_spec in Hb, Ht, Hl, Hr. lra.
  - destruct k; discriminate.
Defined.

(** C7, as stated, fails when a draw is exactly 0 (a value [Math.random]
    may return): on the unit square the point drawn is the corner
    [(0, 0)], which the strict test excludes. *)
Lemma random_point_on_the_boundary :
  Forall Rect_proper [corners 0 0 1 1]
  /\ MultiRect.random (fun _ => 0) (MultiRect.make (corners 0 0 1 1) []) 0%nat
     = Returns (mkPosition (Fin (0 + (1 - 0) * 0)) (Fin (0 + (1 - 0) * 0)), 3%nat)
  /\ MultiRect.contains (MultiRect.make (corners 0 0 1 1) [])
       (mkPosition (Fin (0 + (1 - 0) * 0)) (Fin (0 + (1 - 0) * 0))) = false.
Proof.
  split; [exact unit_rect_proper |].
  rewrite unit_rect.
  unfold MultiRect.random, MultiRect.make, MultiRect.contains, bind, Math_random.
  simpl. rewrite (Rleb_true (0 * ((1 - 0) * (1 - 0))) (0 + (1 - 0) * (1 - 0))) by lra.
  split; [reflexivity |].
  unfold Rect.contains. simpl.
  rewrite (Rltb_false 0 (0 + (1 - 0) * 0)) by lra. reflexivity.
Qed.

(** ** Matrices *)

Lemma forRange_ind {S : Type} (P : nat -> S -> Prop) (body : nat -> S -> S) :
  forall (d lo : nat) (s : S),
    P lo s ->
    (forall k s', (lo <= k < lo + d)%nat -> P k s' -> P (Datatypes.S k) (body k s')) ->
    P (lo + d)%nat (fold_left (fun s k => body k s) (seq lo d) s).
Proof.
  induction d as [| d IH]; intros lo s H0 Hstep; simpl.
  - now rewrite Nat.add_0_r.
  - rewrite <- Nat.add_succ_comm. apply IH.
    + apply Hstep; [lia | assumption].
    + intros k s' Hk. apply Hstep. lia.
Qed.

Lemma forRange_inv {S : Type} (P : nat -> S -> Prop) (body : nat -> S -> S)
    (n : nat) (s : S) :
  P O s ->
  (forall k s', (k < n)%nat -> P k s' -> P (Datatypes.S k) (body k s')) ->
  P n (forRange 0 n body s).
Proof.
  intros H0 Hstep. unfold forRange. rewrite Nat.sub_0_r.
  apply (forRange_ind P body n 0 s H0).
  intros k s' Hk. apply Hstep. lia.
Qed.

Lemma nth_repeat_lt {A : Type} (x d : A) (n i : nat) :
  (i < n)%nat -> nth i (repeat x n) d = x.
Proof.
  revert i. induction n as [| n IH]; intros [| i] H; simpl; try lia; auto.
  apply IH. lia.
Qed.

Lemma zeros_shaped (r c : nat) : wellShaped (Matrix.zeros r c) r c.
Proof.
  unfold wellShaped, Matrix.zeros. simpl.
  repeat split; [apply repeat_length |].
  intros i Hi. rewrite nth_repeat_lt by assumption. apply repeat_length.
Qed.

Lemma get_zeros (r c i j : nat) :
  (i < r)%nat -> (j < c)%nat -> Matrix.get (Matrix.zeros r c) i j = Fin 0.
Proof.
  intros Hi Hj. unfold Matrix.get, Matrix.zeros. simpl.
  rewrite (nth_repeat_lt _ [] r i Hi). now apply nth_repeat_lt.
Qed.

Lemma set_shaped (m : Matrix.t) (r c i j : nat) (v : number) :
  wellShaped m r c -> wellShaped (Matrix.set m i j v) r c.
Proof.
  intros (Hr & Hc & Hl & Hrow). unfold wellShaped, Matrix.set. simpl.
  repeat split; auto.
  - now rewrite length_setAt.
  - intros a Ha. destruct (Nat.eq_dec a i) as [-> | Hne].
    + rewrite nth_setAt_eq by lia. rewrite length_setAt. now apply Hrow.
    + rewrite nth_setAt_neq by assumption. now apply Hrow.
Qed.

Lemma get_set (m : Matrix.t) (r c i j a b : nat) (v : number) :
  wellShaped m r c -> (i < r)%nat -> (j < c)%nat ->
  Matrix.get (Matrix.set m i j v) a b =
  if Nat.eqb a i && Nat.eqb b j then v else Matrix.get m a b.
Proof.
  intros (Hr & Hc & Hl & Hrow) Hi Hj. unfold Matrix.get, Matrix.set. simpl.
  destruct (Nat.eqb_spec a i) as [-> | Hne]; simpl.
  - rewrite nth_setAt_eq by lia.
    destruct (Nat.eqb_spec b j) as [-> | Hne].
    + apply nth_setAt_eq. rewrite Hrow; assumption.
    + now apply nth_setAt_neq.
  - now rewrite nth_setAt_neq.
Qed.

(** Case analysis on the index comparisons of a goal. *)
Ltac index_cases :=
  repeat match goal with
    | |- context [Nat.eqb ?a ?b] => destruct (Nat.eqb_spec a b)
    | |- context [Nat.ltb ?a ?b] => destruct (Nat.ltb_spec a b)
    end;
  simpl; subst; try reflexivity; try lia.

Section KernelMatrix.

Variable opts : InterpolatorOptions.
Variable reports : list StationReport.

Let n := length reports.

(** The kernel matrix is [n x n], has a unit diagonal, and holds off the
    diagonal the basis weight of the two reports, computed with the report
    of the larger index as first argument of [norm]. *)
Lemma makeBases_spec :
  wellShaped (makeBases opts reports) n n
  /\ forall i j, (i < n)%nat -> (j < n)%nat ->
       Matrix.get (makeBases opts reports) i j = basesEntry opts reports i j.
Proof.
  unfold makeBases. fold n.
  set (outer := fun (k : nat) (M : Matrix.t) =>
         wellShaped M n n
         /\ forall a b, (a < n)%nat -> (b < n)%nat ->
              Matrix.get M a b =
              if Nat.ltb a k && Nat.ltb b k then basesEntry opts reports a b
              else Fin 0).
  assert (H : outer n
                (forRange 0 n
                   (fun i bases =>
                      Matrix.set
                        (forRange 0 i
                           (fun j b =>
                              Matrix.set
                                (Matrix.set b i j (kernel opts reports i j))
                                j i (kernel opts reports i j))
                           bases)
                        i i (Fin 1))
                   (Matrix.zeros n n))).
  { apply forRange_inv.
    - split; [apply zeros_shaped |].
      intros a b Ha Hb. rewrite get_zeros by assumption. reflexivity.
    - intros i M Hi [Hshape Hget].
      set (inner := fun (m : nat) (M' : Matrix.t) =>
             wellShaped M' n n
             /\ forall a b, (a < n)%nat -> (b < n)%nat ->
                  Matrix.get M' a b =
                  if Nat.ltb a i && Nat.ltb b i then basesEntry opts reports a b
                  else if Nat.eqb a i && Nat.ltb b m then kernel opts reports i b
                  else if Nat.eqb b i && Nat.ltb a m then kernel opts reports i a
                  else Fin 0).
      assert (Hin : inner i
                (forRange 0 i
                   (fun j b =>
                      Matrix.set
                        (Matrix.set b i j (kernel opts reports i j))
                        j i (kernel opts reports i j))
                   M)).
      { apply forRange_inv.
        - split; [assumption |].
          intros a b Ha Hb. rewrite Hget by assumption. index_cases.
        - intros j M' Hj [Hshape' Hget'].
          split; [now repeat apply set_shaped |].
          intros a b Ha Hb.
          rewrite (get_set _ n n) by (try apply set_shaped; auto; lia).
          rewrite (get_set _ n n) by (auto; lia).
          rewrite Hget' by assumption. index_cases. }
      destruct Hin as [Hshape' Hget'].
      split; [now apply set_shaped |].
      intros a b Ha Hb.
      rewrite (get_set _ n n) by (auto; lia).
      rewrite Hget' by assumption. unfold basesEntry. index_cases. }
  destruct H as [Hshape Hget]. split; [exact Hshape |].
  intros i j Hi Hj. rewrite Hget by assumption.
  apply Nat.ltb_lt in Hi, Hj. now rewrite Hi, Hj.
Qed.

End KernelMatrix.

(** ** Evaluation of the returned closure *)

Lemma fold_left_ext_in {A B : Type} (f g : A -> B -> A) (l : list B) :
  forall s, (forall s' k, In k l -> f s' k = g s' k) ->
            fold_left f l s = fold_left g l s.
Proof.
  induction l as [| k l IH]; intros s H; simpl; [reflexivity |].
  rewrite H by (now left). apply IH. intros s' k' Hk. apply H. now right.
Qed.

Lemma dot_ext (a a' w : Matrix.t) (i i' j : nat) :
  Matrix.columns a = Matrix.columns a' ->
  (forall k, (k < Matrix.columns a)%nat -> Matrix.get a i k = Matrix.get a' i' k) ->
  Matrix.dot a w i j = Matrix.dot a' w i' j.
Proof.
  intros Hc Hget. unfold Matrix.dot. rewrite <- Hc.
  apply fold_left_ext_in. intros s k Hk. apply in_seq in Hk.
  rewrite Hget by lia. reflexivity.
Qed.

Lemma get_mmul (a w : Matrix.t) (i : nat) :
  (i < Matrix.rows a)%nat -> Matrix.columns w = 1%nat ->
  Matrix.get (Matrix.mmul a w) i 0 = Matrix.dot a w i 0.
Proof.
  intros Hi Hw. unfold Matrix.get, Matrix.mmul. cbn [Matrix.data]. rewrite Hw.
  rewrite (nth_indep _ [] (map (fun j => Matrix.dot a w O j) (seq 0 1)))
    by (rewrite length_map, length_seq; exact Hi).
  rewrite (map_nth (fun i0 => map (fun j => Matrix.dot a w i0 j) (seq 0 1))).
  rewrite seq_nth by exact Hi. reflexivity.
Qed.

Lemma get_mmul_singleton (b w : number) :
  Matrix.get (Matrix.mmul (Matrix.rowVector [b]) (Matrix.mk 1 1 [[w]])) 0 0
  = (Fin 0 + b * w)%js.
Proof. reflexivity. Qed.

Lemma get_mmul_empty (w : Matrix.t) :
  Matrix.columns w = 1%nat ->
  Matrix.get (Matrix.mmul (Matrix.rowVector []) w) 0 0 = Fin 0.
Proof.
  intros Hw. rewrite get_mmul by (simpl; auto). reflexivity.
Qed.

Lemma get_columnVector (vs : list number) (i : nat) :
  (i < length vs)%nat ->
  Matrix.get (Matrix.columnVector vs) i 0 = nth i vs NaN.
Proof.
  intros Hi. unfold Matrix.get, Matrix.columnVector. cbn [Matrix.data].
  rewrite (nth_indep _ [] [NaN]) by (now rewrite length_map).
  rewrite (map_nth (fun x => [x])). reflexivity.
Qed.

Section Exactness.

Variable opts : InterpolatorOptions.
Variable reports : list StationReport.

Let n := length reports.
Let K := makeBases opts reports.

Hypothesis norm_sym : forall a b, (a < n)%nat -> (b < n)%nat ->
  kernel opts reports a b = kernel opts reports b a.
Hypothesis unit_diag : forall a, (a < n)%nat -> kernel opts reports a a = Fin 1.

(** The basis vector at the position of report [i] is row [i] of the
    kernel matrix. *)
Lemma base_is_row (i k : nat) :
  (i < n)%nat -> (k < n)%nat ->
  Matrix.get
    (Matrix.rowVector
       (map (basisFn opts)
            (map (fun report =>
                    norm opts (pos (nth i reports undefinedReport)) (pos report))
                 reports))) 0 k
  = Matrix.get K i k.
Proof.
  intros Hi Hk. destruct (makeBases_spec opts reports) as [_ Hget].
  unfold K. rewrite (Hget i k Hi Hk).
  unfold Matrix.get, Matrix.rowVector. cbn [Matrix.data nth].
  rewrite map_map.
  rewrite (nth_indep _ NaN
             (basisFn opts (norm opts (pos (nth i reports undefinedReport))
                                      (pos undefinedReport))))
    by (rewrite length_map; exact Hk).
  rewrite (map_nth (fun x => basisFn opts
                     (norm opts (pos (nth i reports undefinedReport)) (pos x)))).
  fold (kernel opts reports i k). unfold basesEntry.
  destruct (Nat.eqb_spec i k) as [-> | Hne]; [now apply unit_diag |].
  destruct (Nat.ltb_spec k i); [reflexivity | now apply norm_sym].
Qed.

(** If the weights solve the kernel system exactly, evaluating the basis
    vector of report [i] against them gives back entry [i] of the
    right-hand side. *)
Lemma exact_at_report (weights : Matrix.t) (vs : list number) (i : nat) :
  length vs = n -> (i < n)%nat ->
  Matrix.mmul K weights = Matrix.columnVector vs ->
  Matrix.get
    (Matrix.mmul
       (Matrix.rowVector
          (map (basisFn opts)
               (map (fun report =>
                       norm opts (pos (nth i reports undefinedReport)) (pos report))
                    reports)))
       weights) 0 0
  = nth i vs NaN.
Proof.
  intros Hvs Hi Hsolved.
  destruct (makeBases_spec opts reports) as [(Hr & Hc & _) _]. fold K n in Hr, Hc.
  assert (Hw : Matrix.columns weights = 1%nat).
  { change (Matrix.columns (Matrix.mmul K weights) = 1%nat).
    now rewrite Hsolved. }
  rewrite get_mmul by (simpl; auto).
  rewrite (dot_ext _ K weights 0 i 0).
  - rewrite <- get_mmul by (auto; lia). rewrite Hsolved.
    apply get_columnVector. lia.
  - simpl. rewrite !length_map. now rewrite Hc.
  - intros k Hk. simpl in Hk. rewrite !length_map in Hk.
    apply base_is_row; assumption.
Qed.

End Exactness.

Lemma haversineDist_diag (la lo : R) :
  haversineDist (mkPosition (Fin la) (Fin lo)) (mkPosition (Fin la) (Fin lo)) = Fin 0.
Proof.
  rewrite haversineDist_Fin, havTheta_diag. f_equal.
  replace (1 - 2 * 0) with 1 by lra.
  rewrite Rmax_right by lra. rewrite Rmin_left by lra. apply acos_1.
Qed.

Lemma haversineDist_sym (p q : Position) :
  finitePosition p = true -> finitePosition q = true ->
  haversineDist p q = haversineDist q p.
Proof.
  intros Hp Hq.
  destruct (finitePosition_inv p Hp) as (la & lo & ->).
  destruct (finitePosition_inv q Hq) as (lb & lob & ->).
  rewrite !haversineDist_Fin. now rewrite (havTheta_sym la lo lb lob).
Qed.

Lemma default_basis_at_zero : basisFn defaultOptions (Fin 0) = Fin 1.
Proof.
  simpl. f_equal. replace (-300 * (0 * 0)) with 0 by lra. apply exp_0.
Qed.

Lemma nth_finite (reports : list StationReport) (a : nat) :
  Forall (fun r => finitePosition (pos r) = true) reports ->
  (a < length reports)%nat ->
  finitePosition (pos (nth a reports undefinedReport)) = true.
Proof.
  intros H Ha. rewrite Forall_forall in H. apply H. now apply nth_In.
Qed.

(** C4.  With the default options and reports at finite positions: when
    the weights returned by the solver solve the two kernel systems
    exactly, evaluating the interpolator at the position of report [i]
    yields the component speeds [speed_i * cos(dir_i)] and
    [speed_i * sin(dir_i)] of that report, and the returned wind and
    displacement are those of these two components. *)
Theorem interpolation_exact_at_reports (solve : Solver)
    (reports : list StationReport) (latWeights lonWeights : Matrix.t)
    (i : nat) (r : StationReport) :
  Forall (fun r => finitePosition (pos r) = true) reports ->
  solve (makeBases defaultOptions reports) (latSpeeds reports) = Returns latWeights ->
  solve (makeBases defaultOptions reports) (lonSpeeds reports) = Returns lonWeights ->
  Matrix.mmul (makeBases defaultOptions reports) latWeights = latSpeeds reports ->
  Matrix.mmul (makeBases defaultOptions reports) lonWeights = lonSpeeds reports ->
  nth_error reports i = Some r ->
  exists interpolator,
    makeInterpolator solve reports defaultOptions = Returns interpolator
    /\ componentSpeeds defaultOptions reports latWeights lonWeights (pos r)
       = (latSpeedOf r, lonSpeedOf r)
    /\ forall hours,
         interpolator (pos r) hours =
         (mkPosition
            (lat (pos r) + degrees (latSpeedOf r * hours / EARTH_RADIUS))%js
            (lon (pos r) + degrees (lonSpeedOf r * hours / EARTH_RADIUS))%js,
          mkWind (degrees (Math.atan2 (lonSpeedOf r) (latSpeedOf r)))
                 (Math.hypot (latSpeedOf r) (lonSpeedOf r))).
Proof.
  intros Hfin Hlat Hlon Hlat' Hlon' Hi.
  assert (Hlt : (i < length reports)%nat).
  { apply nth_error_Some. congruence. }
  assert (Hr : nth i reports undefinedReport = r).
  { apply nth_error_nth. exact Hi. }
  assert (Hsym : forall a b, (a < length reports)%nat -> (b < length reports)%nat ->
            kernel defaultOptions reports a b = kernel defaultOptions reports b a).
  { intros a b Ha Hb. unfold kernel. cbn [norm defaultOptions]. f_equal.
    apply haversineDist_sym; now apply nth_finite. }
  assert (Hdiag : forall a, (a < length reports)%nat ->
            kernel defaultOptions reports a a = Fin 1).
  { intros a Ha. unfold kernel. cbn [norm defaultOptions].
    destruct (finitePosition_inv _ (nth_finite reports a Hfin Ha)) as (la & lo & ->).
    rewrite haversineDist_diag. apply default_basis_at_zero. }
  assert (Hcs : componentSpeeds defaultOptions reports latWeights lonWeights (pos r)
                = (latSpeedOf r, lonSpeedOf r)).
  { subst r. unfold componentSpeeds. f_equal.
    - rewrite (exact_at_report defaultOptions reports Hsym Hdiag latWeights
                 (map latSpeedOf reports) i); auto.
      + rewrite (nth_indep _ NaN (latSpeedOf undefinedReport))
          by (now rewrite length_map).
        now rewrite map_nth.
      + apply length_map.
    - rewrite (exact_at_report defaultOptions reports Hsym Hdiag lonWeights
                 (map lonSpeedOf reports) i); auto.
      + rewrite (nth_indep _ NaN (lonSpeedOf undefinedReport))
          by (now rewrite length_map).
        now rewrite map_nth.
      + apply length_map. }
  exists (interpolate defaultOptions reports latWeights lonWeights).
  split; [unfold makeInterpolator; rewrite Hlat, Hlon; reflexivity |].
  split; [exact Hcs |].
  intros hours. unfold interpolate. rewrite Hcs. reflexivity.
Qed.

(** ** Small systems, solved by the LU routine *)

Lemma makeBases_singleton (opts : InterpolatorOptions) (r : StationReport) :
  makeBases opts [r] = Matrix.mk 1 1 [[Fin 1]].
Proof. reflexivity. Qed.

Lemma luSolve_1x1 (v : number) :
  luSolve (Matrix.mk 1 1 [[Fin 1]]) (Matrix.mk 1 1 [[v]])
  = Returns (Matrix.mk 1 1 [[(v / Fin (1 - 0))%js]]).
Proof.
  unfold luSolve, LuDecomposition.decompose, LuDecomposition.solve,
    LuDecomposition.column, LuDecomposition.isSingular, forRange.
  simpl. rdecide. simpl. rdecide. reflexivity.
Qed.

Lemma luSolve_1x1_exact (x : R) :
  luSolve (Matrix.mk 1 1 [[Fin 1]]) (Matrix.mk 1 1 [[Fin x]])
  = Returns (Matrix.mk 1 1 [[Fin x]])
  /\ Matrix.mmul (Matrix.mk 1 1 [[Fin 1]]) (Matrix.mk 1 1 [[Fin x]])
     = Matrix.mk 1 1 [[Fin x]].
Proof.
  split.
  - rewrite luSolve_1x1, div_Fin by lra.
    replace (x / (1 - 0)) with x by field. reflexivity.
  - unfold Matrix.mmul, Matrix.dot. simpl.
    replace (0 + 1 * x) with x by lra. reflexivity.
Qed.

Lemma luSolve_empty :
  luSolve (Matrix.zeros 0 0) (Matrix.columnVector []) = Returns (Matrix.mk 0 1 []).
Proof. reflexivity. Qed.

(** The LU routine on a symmetric two by two kernel matrix with an
    off-diagonal entry in [(0, 1)]: no row exchange, and the weights it
    returns solve the system. *)
Lemma luSolve_2x2 (k a b : R) :
  0 < k < 1 ->
  exists x y,
    luSolve (Matrix.mk 2 2 [[Fin 1; Fin k]; [Fin k; Fin 1]])
            (Matrix.mk 2 1 [[Fin a]; [Fin b]])
    = Returns (Matrix.mk 2 1 [[Fin x]; [Fin y]])
    /\ Matrix.mmul (Matrix.mk 2 2 [[Fin 1; Fin k]; [Fin k; Fin 1]])
                   (Matrix.mk 2 1 [[Fin x]; [Fin y]])
       = Matrix.mk 2 1 [[Fin a]; [Fin b]].
Proof.
  intros Hk.
  assert (Hd : 1 - (0 + (k - 0) / (1 - 0) * (k - 0)) <> 0).
  { replace (1 - (0 + (k - 0) / (1 - 0) * (k - 0))) with (1 - k * k) by (field; lra).
    nra. }
  unfold luSolve, LuDecomposition.decompose, LuDecomposition.solve,
    LuDecomposition.column, LuDecomposition.isSingular, forRange.
  simpl.
  rewrite (Rltb_false (Rabs (1 - 0)) (Rabs (k - 0)))
    by (rewrite !Rabs_pos_eq by lra; lra).
  simpl. rdecide. simpl.
  rewrite !(Reqb_false _ _ Hd). simpl. rdecide. simpl.
  rdecide. simpl.
  eexists _, _. split; [reflexivity |].
  unfold Matrix.mmul, Matrix.dot. simpl.
  do 2 f_equal; [| f_equal]; do 2 f_equal; field; lra.
Qed.

(** Two finite positions a positive haversine apart have a kernel entry
    strictly between 0 and 1. *)
Lemma default_basis_apart (lat1 lon1 lat2 lon2 : R) :
  0 < havTheta lat1 lon1 lat2 lon2 ->
  exists k,
    basisFn defaultOptions
      (haversineDist (mkPosition (Fin lat1) (Fin lon1))
                     (mkPosition (Fin lat2) (Fin lon2))) = Fin k
    /\ 0 < k < 1.
Proof.
  intros Hh. rewrite haversineDist_Fin.
  generalize dependent (havTheta lat1 lon1 lat2 lon2). intros h Hh.
  remember (Rmin 1 (Rmax (-1) (1 - 2 * h))) as c eqn:Ec.
  assert (Hc : -1 <= c < 1).
  { subst c. split; [apply clamp_range |].
    eapply Rle_lt_trans; [apply Rmin_r |]. apply Rmax_lub_lt; lra. }
  clear Ec.
  assert (Hd : acos c <> 0).
  { intros H0. pose proof (cos_acos c ltac:(lra)) as Hcos.
    rewrite H0, cos_0 in Hcos. lra. }
  eexists. split; [reflexivity |].
  cbn [Rtrigo_def.exp]. split; [apply exp_pos |].
  rewrite <- exp_0. apply exp_increasing.
  pose proof (Rsqr_pos_lt _ Hd) as Hsq. unfold Rsqr in Hsq. nra.
Qed.

Lemma havTheta_kansas_dakota : 0 < havTheta 45 (-100) 40 (-100).
Proof.
  unfold havTheta.
  replace ((-100 - -100) * PI / 180) with 0 by lra. rewrite cos_0.
  replace ((40 - 45) * PI / 180) with (- (PI / 36)) by lra. rewrite cos_neg.
  assert (cos (PI / 36) < 1).
  { rewrite <- cos_0. pose proof PI_RGT_0.
    apply cos_decreasing_1; lra. }
  lra.
Qed.

Lemma makeBases_pair (opts : InterpolatorOptions) (r1 r2 : StationReport) :
  makeBases opts [r1; r2]
  = Matrix.mk 2 2
      [[Fin 1; basisFn opts (norm opts (pos r2) (pos r1))];
       [basisFn opts (norm opts (pos r2) (pos r1)); Fin 1]].
Proof. reflexivity. Qed.

Lemma speeds_pair (r1 r2 : StationReport) :
  latSpeeds [r1; r2] = Matrix.mk 2 1 [[latSpeedOf r1]; [latSpeedOf r2]]
  /\ lonSpeeds [r1; r2] = Matrix.mk 2 1 [[lonSpeedOf r1]; [lonSpeedOf r2]].
Proof. split; reflexivity. Qed.

Lemma interpolation_exact_at_reports_witness :
  exists interpolator,
    makeInterpolator luSolve [northerly; easterly] defaultOptions
    = Returns interpolator
    /\ (forall hours,
          snd (interpolator (pos northerly) hours)
          = mkWind (degrees (Math.atan2 (lonSpeedOf northerly) (latSpeedOf northerly)))
                   (Math.hypot (latSpeedOf northerly) (lonSpeedOf northerly)))
    /\ (forall hours,
          snd (interpolator (pos easterly) hours)
          = mkWind (degrees (Math.atan2 (lonSpeedOf easterly) (latSpeedOf easterly)))
                   (Math.hypot (latSpeedOf easterly) (lonSpeedOf easterly))).
Proof.
  destruct (default_basis_apart 45 (-100) 40 (-100) havTheta_kansas_dakota)
    as (k & Hk & Hk01).
  assert (HK : makeBases defaultOptions [northerly; easterly]
               = Matrix.mk 2 2 [[Fin 1; Fin k]; [Fin k; Fin 1]]).
  { rewrite makeBases_pair.
    change (basisFn defaultOptions
              (norm defaultOptions (pos easterly) (pos northerly)))
      with (basisFn defaultOptions
              (haversineDist (mkPosition (Fin 45) (Fin (-100)))
                             (mkPosition (Fin 40) (Fin (-100))))).
    rewrite Hk. reflexivity. }
  destruct (speeds_pair northerly easterly) as [Elat Elon].
  assert (Hn1 : latSpeedOf northerly = Fin (10 * cos (0 * PI / 180))).
  { unfold latSpeedOf. cbn [northerly wind speed dir]. now rewrite radians_Fin. }
  assert (Hn2 : lonSpeedOf northerly = Fin (10 * sin (0 * PI / 180))).
  { unfold lonSpeedOf. cbn [northerly wind speed dir]. now rewrite radians_Fin. }
  assert (He1 : latSpeedOf easterly = Fin (20 * cos (90 * PI / 180))).
  { unfold latSpeedOf. cbn [easterly wind speed dir]. now rewrite radians_Fin. }
  assert (He2 : lonSpeedOf easterly = Fin (20 * sin (90 * PI / 180))).
  { unfold lonSpeedOf. cbn [easterly wind speed dir]. now rewrite radians_Fin. }
  destruct (luSolve_2x2 k (10 * cos (0 * PI / 180)) (20 * cos (90 * PI / 180)) Hk01)
    as (x1 & y1 & Hs1 & Hm1).
  destruct (luSolve_2x2 k (10 * sin (0 * PI / 180)) (20 * sin (90 * PI / 180)) Hk01)
    as (x2 & y2 & Hs2 & Hm2).
  rewrite <- Hn1, <- He1, <- Elat, <- HK in Hs1, Hm1.
  rewrite <- Hn2, <- He2, <- Elon, <- HK in Hs2, Hm2.
  assert (Hfin : Forall (fun r => finitePosition (pos r) = true) [northerly; easterly]).
  { repeat constructor. }
  destruct (interpolation_exact_at_reports luSolve [northerly; easterly]
              _ _ 0 northerly Hfin Hs1 Hs2 Hm1 Hm2 eq_refl)
    as (interpolator & Hmk & _ & Hat0).
  destruct (interpolation_exact_at_reports luSolve [northerly; easterly]
              _ _ 1 easterly Hfin Hs1 Hs2 Hm1 Hm2 eq_refl)
    as (interpolator' & Hmk' & _ & Hat1).
  rewrite Hmk in Hmk'. injection Hmk' as <-.
  exists interpolator. split; [exact Hmk |].
  split; intros hours; [rewrite Hat0 | rewrite Hat1]; reflexivity.
Defined.

(** The closure built from no report: both component speeds are 0. *)
Lemma empty_eval (opts : InterpolatorOptions) (W W' : Matrix.t)
    (p : Position) (hours : number) :
  Matrix.columns W = 1%nat -> Matrix.columns W' = 1%nat ->
  interpolate opts [] W W' p hours =
  (mkPosition (lat p + degrees (Fin 0 * hours / EARTH_RADIUS))%js
              (lon p + degrees (Fin 0 * hours / EARTH_RADIUS))%js,
   mkWind (Fin 0) (Fin 0)).
Proof.
  intros HW HW'. unfold interpolate, componentSpeeds. cbn [map].
  rewrite !get_mmul_empty by assumption.
  f_equal. f_equal.
  - cbn [Math.atan2]. unfold Math.Ratan2. rdecide.
    rewrite degrees_Fin. f_equal. unfold Rdiv. ring.
  - cbn [Math.hypot]. f_equal.
    replace (0 * 0 + 0 * 0) with 0 by lra. apply sqrt_0.
Qed.

Lemma no_displacement (x h : R) :
  (Fin x + degrees (Fin 0 * Fin h / EARTH_RADIUS))%js = Fin x.
Proof.
  unfold EARTH_RADIUS. cbn [Num.mul]. rewrite div_Fin by lra.
  rewrite degrees_Fin. cbn [Num.add]. f_equal. unfold Rdiv. ring.
Qed.

(** C2 (as the code has it).  Given the empty report list,
    [makeInterpolator] returns an ordinary interpolator (as soon as the
    solver returns a one-column result for the empty system, which the LU
    routine does).  Evaluating it never fails: at every position and for
    every [hours] it returns the wind of speed 0 and direction 0, and at a
    finite position and finite [hours] it returns that position unmoved. *)
Theorem empty_report_list_gives_zero_wind (solve : Solver)
    (opts : InterpolatorOptions) (W : Matrix.t) :
  solve (makeBases opts []) (latSpeeds []) = Returns W ->
  Matrix.columns W = 1%nat ->
  (forall p hours, exists q,
      evaluateOn (makeInterpolator solve [] opts) p hours
      = Returns (q, mkWind (Fin 0) (Fin 0)))
  /\ (forall la lo h,
        evaluateOn (makeInterpolator solve [] opts)
                   (mkPosition (Fin la) (Fin lo)) (Fin h)
        = Returns (mkPosition (Fin la) (Fin lo), mkWind (Fin 0) (Fin 0))).
Proof.
  intros Hsolve HW.
  assert (Hmk : makeInterpolator solve [] opts
                = Returns (interpolate opts [] W W)).
  { unfold makeInterpolator.
    change (lonSpeeds []) with (latSpeeds []). now rewrite Hsolve. }
  rewrite Hmk. unfold evaluateOn, bindO. split.
  - intros p hours. rewrite empty_eval by assumption. eexists. reflexivity.
  - intros la lo h. rewrite empty_eval by assumption.
    cbn [lat lon]. now rewrite !no_displacement.
Qed.

Lemma empty_report_list_gives_zero_wind_witness :
  evaluateOn (makeInterpolator luSolve [] defaultOptions)
             (mkPosition (Fin 40) (Fin (-100))) (Fin 0.5)
  = Returns (mkPosition (Fin 40) (Fin (-100)), mkWind (Fin 0) (Fin 0)).
Proof.
  exact (proj2 (empty_report_list_gives_zero_wind luSolve defaultOptions
                  (Matrix.mk 0 1 []) luSolve_empty eq_refl) 40 (-100) 0.5).
Defined.

(** C2, as stated, fails: built from the empty list and evaluated at
    [kansas] for half an hour, the interpolator does not fail; it returns
    the position unmoved and the wind of speed 0. *)
Lemma empty_report_list_does_not_fail :
  evaluateOn (makeInterpolator luSolve [] defaultOptions) kansas (Fin 0.5)
  = Returns (kansas, mkWind (Fin 0) (Fin 0))
  /\ ~ (exists e,
          evaluateOn (makeInterpolator luSolve [] defaultOptions) kansas (Fin 0.5)
          = Throws e).
Proof.
  assert (H : evaluateOn (makeInterpolator luSolve [] defaultOptions) kansas (Fin 0.5)
              = Returns (kansas, mkWind (Fin 0) (Fin 0))).
  { change (makeInterpolator luSolve [] defaultOptions)
      with (Returns (interpolate defaultOptions [] (Matrix.mk 0 1 []) (Matrix.mk 0 1 []))).
    unfold evaluateOn, bindO. rewrite empty_eval by reflexivity.
    unfold kansas. cbn [lat lon]. now rewrite !no_displacement. }
  split; [exact H |]. intros [e He]. rewrite H in He. discriminate.
Qed.

(** ** Reports with a missing wind *)

Lemma missing_eval (opts : InterpolatorOptions) (r : StationReport)
    (p : Position) (hours : number) :
  interpolate opts [r] (Matrix.mk 1 1 [[NaN]]) (Matrix.mk 1 1 [[NaN]]) p hours
  = (mkPosition NaN NaN, mkWind NaN NaN).
Proof.
  unfold interpolate, componentSpeeds. cbn [map].
  rewrite !get_mmul_singleton, !mul_NaN_r. cbn [Num.add Num.mul Num.div].
  unfold degrees. cbn [Num.mul Num.div Math.atan2 Math.hypot].
  now rewrite !add_NaN_r.
Qed.

Lemma makeInterpolator_missing :
  makeInterpolator luSolve [missing] defaultOptions
  = Returns (interpolate defaultOptions [missing]
               (Matrix.mk 1 1 [[NaN]]) (Matrix.mk 1 1 [[NaN]])).
Proof.
  unfold makeInterpolator. rewrite makeBases_singleton.
  change (latSpeeds [missing]) with (Matrix.mk 1 1 [[NaN]]).
  change (lonSpeeds [missing]) with (Matrix.mk 1 1 [[NaN]]).
  rewrite luSolve_1x1. reflexivity.
Qed.

Lemma warnings_missing (reports : list StationReport) (r : StationReport) :
  In r reports ->
  Num.isNaN (speed (wind r)) || Num.isNaN (dir (wind r)) = true ->
  In (MissingData (wind r)) (warnings reports).
Proof.
  intros Hin Hnan. unfold warnings. apply in_flat_map.
  exists r. split; [exact Hin |]. rewrite Hnan. apply in_or_app. right. now left.
Qed.

(** C1 (as the code has it).  [makeInterpolator] excludes no report.  The
    kernel matrix has one row and one column per input report, with a unit
    diagonal; each right-hand side has one entry per input report, computed
    from that report's wind whatever it is; and the basis vector of an
    evaluation has one entry per input report.  A report whose speed or
    direction is [NaN] is only logged as missing data. *)
Theorem every_report_enters_the_solve (opts : InterpolatorOptions)
    (reports : list StationReport) :
  wellShaped (makeBases opts reports) (length reports) (length reports)
  /\ (forall i, (i < length reports)%nat ->
        Matrix.get (makeBases opts reports) i i = Fin 1)
  /\ latSpeeds reports = Matrix.columnVector (map latSpeedOf reports)
  /\ lonSpeeds reports = Matrix.columnVector (map lonSpeedOf reports)
  /\ Matrix.rows (latSpeeds reports) = length reports
  /\ Matrix.rows (lonSpeeds reports) = length reports
  /\ (forall solve interpolator,
        makeInterpolator solve reports opts = Returns interpolator ->
        exists latWeights lonWeights,
          solve (makeBases opts reports) (latSpeeds reports) = Returns latWeights
          /\ solve (makeBases opts reports) (lonSpeeds reports) = Returns lonWeights
          /\ interpolator = interpolate opts reports latWeights lonWeights)
  /\ (forall r, In r reports ->
        Num.isNaN (speed (wind r)) || Num.isNaN (dir (wind r)) = true ->
        In (MissingData (wind r)) (warnings reports)).
Proof.
  destruct (makeBases_spec opts reports) as [Hshape Hget].
  split; [exact Hshape |].
  split. { intros i Hi. rewrite Hget by assumption. unfold basesEntry.
           now rewrite Nat.eqb_refl. }
  split; [reflexivity |]. split; [reflexivity |].
  split; [simpl; apply length_map |]. split; [simpl; apply length_map |].
  split.
  - intros solve interpolator. unfold makeInterpolator, bindO.
    destruct (solve _ (latSpeeds reports)) as [latWeights | e]; [| discriminate].
    destruct (solve _ (lonSpeeds reports)) as [lonWeights | e]; [| discriminate].
    intros H. injection H as <-. now exists latWeights, lonWeights.
  - intros r. apply warnings_missing.
Qed.

(** C1, as stated, fails: the report [missing] has no finite speed, yet it
    has its row in the kernel matrix, and the interpolator built from it
    does not evaluate like the one built from the retained reports (none):
    it returns [NaN] everywhere. *)
Lemma missing_report_is_not_excluded :
  finiteWind missing = false
  /\ makeBases defaultOptions [missing] = Matrix.mk 1 1 [[Fin 1]]
  /\ makeBases defaultOptions (filter finiteWind [missing]) = Matrix.mk 0 0 []
  /\ evaluateOn (makeInterpolator luSolve [missing] defaultOptions) kansas (Fin 0.5)
     = Returns (mkPosition NaN NaN, mkWind NaN NaN)
  /\ evaluateOn (makeInterpolator luSolve (filter finiteWind [missing]) defaultOptions)
                kansas (Fin 0.5)
     = Returns (kansas, mkWind (Fin 0) (Fin 0))
  /\ evaluateOn (makeInterpolator luSolve [missing] defaultOptions) kansas (Fin 0.5)
     <> evaluateOn (makeInterpolator luSolve (filter finiteWind [missing]) defaultOptions)
                   kansas (Fin 0.5).
Proof.
  assert (H1 : evaluateOn (makeInterpolator luSolve [missing] defaultOptions)
                 kansas (Fin 0.5)
               = Returns (mkPosition NaN NaN, mkWind NaN NaN)).
  { rewrite makeInterpolator_missing. unfold evaluateOn, bindO.
    now rewrite missing_eval. }
  assert (H2 : evaluateOn
                 (makeInterpolator luSolve (filter finiteWind [missing]) defaultOptions)
                 kansas (Fin 0.5)
               = Returns (kansas, mkWind (Fin 0) (Fin 0))).
  { change (makeInterpolator luSolve (filter finiteWind [missing]) defaultOptions)
      with (Returns (interpolate defaultOptions [] (Matrix.mk 0 1 []) (Matrix.mk 0 1 []))).
    unfold evaluateOn, bindO. rewrite empty_eval by reflexivity.
    unfold kansas. cbn [lat lon]. now rewrite !no_displacement. }
  repeat split; try reflexivity; try assumption.
  rewrite H1, H2. discriminate.
Qed.

(** ** Finite positions *)

Lemma Rect_contains_finite (r : Rect.t) (p : Position) :
  Rect_valid r -> Rect.contains r p = true -> finitePosition p = true.
Proof.
  intros (b & t & l & rr & -> & _ & _).
  destruct p as [[x | | |] [y | | |]]; unfold Rect.contains; simpl;
    rewrite ?andb_false_r; auto.
Qed.

Lemma outside_when_not_finite (s : Stream.t) :
  finitePosition (Stream.pos s) = false -> needsRespawn s = true.
Proof.
  intros Hnf. unfold needsRespawn. apply orb_true_iff. right.
  apply negb_true_iff. apply not_true_is_false. intros Hin.
  unfold MultiRect.contains in Hin. apply existsb_exists in Hin.
  destruct Hin as (rect & Hrect & Hc).
  pose proof USA_OUTER_valid as Hv. rewrite Forall_forall in Hv.
  rewrite (Rect_contains_finite rect _ (Hv rect Hrect) Hc) in Hnf. discriminate.
Qed.

(** C3 (as the code has it).  A tick does not inspect what the
    interpolator returns: the returned position is stored and reported as
    it is.  So the invariant holds relative to the interpolator: from a
    pool of finite positions, and with an interpolator that maps finite
    positions to finite positions over one tick, every position of the new
    pool and every end point of the output is finite.  A particle left at a
    non-finite position fails the containment test, so the next tick
    respawns it. *)
Theorem positions_stay_finite (src : RandomSource) (u : Update)
    (interpolator : Interpolator) (c : nat) :
  (forall n, 0 <= src n < 1) ->
  (forall p, finitePosition p = true ->
             finitePosition (fst (interpolator p (tickDuration u))) = true) ->
  Forall (fun s => finitePosition (Stream.pos s) = true) (streams u) ->
  (exists ds u' c',
     update src u interpolator c = Returns ((ds, u'), c')
     /\ Forall (fun s => finitePosition (Stream.pos s) = true) (streams u')
     /\ Forall (fun d => finitePosition (fst d) = true
                         /\ finitePosition (snd d) = true) ds)
  /\ forall s, finitePosition (Stream.pos s) = false -> needsRespawn s = true.
Proof.
  intros Hsrc Hinterp Hpool. split; [| exact outside_when_not_finite].
  destruct (update_slots src u interpolator c Hsrc)
    as (ds & l' & c' & Hrun & _ & Hl & Hd & Hslot).
  exists ds, (mkUpdate (tickDuration u) (minTicks u) (maxTicks u) l'), c'.
  split; [exact Hrun |]. cbn [streams].
  rewrite Forall_forall in Hpool.
  assert (Hadv : forall s, finitePosition (Stream.pos s) = true ->
            finitePosition (Stream.pos (fst (advect u interpolator s))) = true
            /\ finitePosition (fst (snd (advect u interpolator s))) = true
            /\ finitePosition (snd (snd (advect u interpolator s))) = true).
  { intros s Hs. unfold advect. cbn [fst snd Stream.pos]. auto. }
  assert (Hboth : forall i s, nth_error (streams u) i = Some s ->
            exists s' d, nth_error l' i = Some s' /\ nth_error ds i = Some d
              /\ finitePosition (Stream.pos s') = true
              /\ finitePosition (fst d) = true /\ finitePosition (snd d) = true).
  { intros i s Hi. destruct (Hslot i s Hi) as [Hkeep Hre].
    destruct (needsRespawn s) eqn:Hr.
    - destruct (Hre eq_refl) as (fresh & cf & _ & _ & _ & Hfin & Hl' & Hd').
      destruct (Hadv fresh Hfin) as (? & ? & ?). eauto 8.
    - destruct (Hkeep eq_refl) as [Hl' Hd'].
      destruct (Hadv s (Hpool s (nth_error_In _ _ Hi))) as (? & ? & ?). eauto 8. }
  split; apply Forall_forall; intros x Hx;
    apply In_nth_error in Hx; destruct Hx as [i Hi].
  - destruct (nth_error (streams u) i) as [s |] eqn:Hs.
    2:{ apply nth_error_None in Hs.
        assert (i < length l')%nat by (apply nth_error_Some; congruence). lia. }
    destruct (Hboth i s Hs) as (s' & d & Hs' & _ & Hfin & _).
    rewrite Hi in Hs'. injection Hs' as <-. exact Hfin.
  - destruct (nth_error (streams u) i) as [s |] eqn:Hs.
    2:{ apply nth_error_None in Hs.
        assert (Hlt : (i < length ds)%nat).
        { apply nth_error_Some. intros Hn. unfold Delta in *. congruence. }
        lia. }
    destruct (Hboth i s Hs) as (s' & d & _ & Hd' & _ & Hf1 & Hf2).
    unfold Delta in *. rewrite Hi in Hd'. injection Hd' as <-. auto.
Qed.

Lemma emptyInterpolator_finite (p : Position) :
  finitePosition p = true ->
  finitePosition (fst (emptyInterpolator p (Fin 0.5))) = true.
Proof.
  intros Hp. destruct (finitePosition_inv p Hp) as (la & lo & ->).
  unfold emptyInterpolator. rewrite empty_eval by reflexivity.
  cbn [fst lat lon]. now rewrite !no_displacement.
Qed.

Lemma positions_stay_finite_witness :
  exists ds u' c',
    update halfDraws (poolOfOne 3) emptyInterpolator 0%nat = Returns ((ds, u'), c')
    /\ Forall (fun s => finitePosition (Stream.pos s) = true) (streams u').
Proof.
  destruct (positions_stay_finite halfDraws (poolOfOne 3) emptyInterpolator 0
              halfDraws_range emptyInterpolator_finite
              ltac:(repeat constructor))
    as [(ds & u' & c' & Hrun & Hfin & _) _].
  exists ds, u', c'. split; assumption.
Defined.

(** C3, as stated, fails: the pool holds one particle at a finite position,
    the interpolator is the one built from the report [missing], and after
    the tick the particle's position, and the end of its segment, are
    [NaN]. *)
Lemma nan_position_is_stored :
  exists interpolator,
    makeInterpolator luSolve [missing] defaultOptions = Returns interpolator
    /\ Forall (fun s => finitePosition (Stream.pos s) = true) (streams (poolOfOne 3))
    /\ update halfDraws (poolOfOne 3) interpolator 0%nat
       = Returns (([(kansas, mkPosition NaN NaN)],
                   mkUpdate (Fin 0.5) (Fin 5) (Fin 10)
                     [Stream.mk (mkPosition NaN NaN) (Fin (3 - 1))]),
                  0%nat).
Proof.
  eexists. split; [exact makeInterpolator_missing |].
  split; [repeat constructor |].
  rewrite update_processAll. cbn [streams poolOfOne].
  rewrite processAll_cons. unfold processStream.
  assert (Hkeep : needsRespawn (Stream.mk kansas (Fin 3)) = false).
  { unfold needsRespawn. cbn [Stream.ttl Stream.pos].
    rewrite kansas_in_USA_OUTER. simpl. now rewrite Rleb_false by lra. }
  rewrite Hkeep. unfold bind, ret, advect.
  cbn [Stream.pos Stream.ttl tickDuration]. rewrite missing_eval. reflexivity.
Qed.

(* ================================================================== *)
(** * Further properties of the code *)
(* ================================================================== *)

(** ** GeoMath: conversions and the haversine formula *)

Lemma scale_Infinity (x : R) :
  0 < x ->
  (Infinity * Fin x)%js = Infinity /\ (Infinity / Fin x)%js = Infinity
  /\ (NegInfinity * Fin x)%js = NegInfinity
  /\ (NegInfinity / Fin x)%js = NegInfinity.
Proof.
  intros Hx. simpl. unfold Num.scaleInf. rdecide. repeat split; reflexivity.
Qed.

(** X1.  [degrees] and [radians] are inverse to each other on every
    number, the special values included. *)
Theorem degrees_radians_inverse (a : number) :
  degrees (radians a) = a /\ radians (degrees a) = a.
Proof.
  pose proof PI_RGT_0 as Hpi.
  destruct a as [x | | |].
  - rewrite radians_Fin, degrees_Fin, degrees_Fin, radians_Fin.
    split; f_equal; field; lra.
  - split; reflexivity.
  - destruct (scale_Infinity PI Hpi) as (Hm & Hd & _).
    destruct (scale_Infinity 180 ltac:(lra)) as (Hm' & Hd' & _).
    unfold degrees, radians, Math.PI.
    repeat (rewrite ?Hm, ?Hd, ?Hm', ?Hd'). split; reflexivity.
  - destruct (scale_Infinity PI Hpi) as (_ & _ & Hm & Hd).
    destruct (scale_Infinity 180 ltac:(lra)) as (_ & _ & Hm' & Hd').
    unfold degrees, radians, Math.PI.
    repeat (rewrite ?Hm, ?Hd, ?Hm', ?Hd'). split; reflexivity.
Qed.

(** X2.  [invHav] undoes [hav] on angles of [[0, PI]], [hav] undoes
    [invHav] on [[0, 1]], and thanks to the clamp [invHav] returns a finite
    angle of [[0, PI]] at every finite argument, also outside [[0, 1]]. *)
Theorem hav_invHav_inverse :
  (forall theta, 0 <= theta <= PI -> invHav (hav (Fin theta)) = Fin theta)
  /\ (forall x, 0 <= x <= 1 -> hav (invHav (Fin x)) = Fin x)
  /\ (forall x, exists d, invHav (Fin x) = Fin d /\ 0 <= d <= PI).
Proof.
  split; [| split].
  - intros theta Ht. rewrite hav_Fin, invHav_Fin. f_equal.
    replace (1 - 2 * ((1 - cos theta) / 2)) with (cos theta) by field.
    pose proof (COS_bound theta) as [Hlo Hhi].
    rewrite Rmax_right by lra. rewrite Rmin_right by lra.
    now apply acos_cos.
  - intros x Hx. rewrite invHav_Fin, hav_Fin. f_equal.
    rewrite Rmax_right by lra. rewrite Rmin_right by lra.
    rewrite cos_acos by lra. field.
  - intros x. rewrite invHav_Fin. eexists. split; [reflexivity | apply acos_bound].
Qed.

Lemma acos_cos_abs (x : R) : Rabs x <= PI -> acos (cos x) = Rabs x.
Proof.
  intros Hx. unfold Rabs in *. destruct (Rcase_abs x) as [Hneg | Hpos].
  - rewrite <- cos_neg. apply acos_cos. lra.
  - apply acos_cos. lra.
Qed.

Lemma clamp_cos (x : R) : Rmin 1 (Rmax (-1) (cos x)) = cos x.
Proof.
  pose proof (COS_bound x) as [Hlo Hhi].
  rewrite Rmax_right by lra. now rewrite Rmin_right by lra.
Qed.

Lemma scaled_abs (d : R) : Rabs (d * PI / 180) = Rabs d * PI / 180.
Proof.
  pose proof PI_RGT_0 as Hpi.
  unfold Rdiv. rewrite !Rabs_mult.
  rewrite (Rabs_pos_eq PI) by lra. rewrite (Rabs_pos_eq (/ 180)) by lra.
  reflexivity.
Qed.

(** X3.  In exact arithmetic, the formula gives the true angle on the two
    families of great circles it can be checked on by hand: between two
    points of one meridian, and between two points of the equator, the
    distance is the difference of the latitudes, respectively of the
    longitudes, in radians (for a difference of at most 180 degrees).  The
    program's doubles agree with these values only up to rounding. *)
Theorem haversineDist_on_meridian_and_equator (a b l : R) :
  Rabs (b - a) <= 180 ->
  haversineDist (mkPosition (Fin a) (Fin l)) (mkPosition (Fin b) (Fin l))
  = Fin (Rabs (b - a) * PI / 180)
  /\ haversineDist (mkPosition (Fin 0) (Fin a)) (mkPosition (Fin 0) (Fin b))
     = Fin (Rabs (b - a) * PI / 180).
Proof.
  intros Hd. pose proof PI_RGT_0 as Hpi.
  assert (Hrange : Rabs ((b - a) * PI / 180) <= PI).
  { rewrite scaled_abs. pose proof (Rabs_pos (b - a)). nra. }
  rewrite !haversineDist_Fin. unfold havTheta. split; f_equal.
  - replace ((l - l) * PI / 180) with 0 by lra. rewrite cos_0.
    replace (1 - 2 * ((1 - cos ((b - a) * PI / 180)) / 2
                      + cos (a * PI / 180) * cos (b * PI / 180) * ((1 - 1) / 2)))
      with (cos ((b - a) * PI / 180)) by field.
    rewrite clamp_cos, acos_cos_abs by assumption. apply scaled_abs.
  - replace ((0 - 0) * PI / 180) with 0 by lra.
    replace (0 * PI / 180) with 0 by lra. rewrite cos_0.
    replace (1 - 2 * ((1 - 1) / 2 + 1 * 1 * ((1 - cos ((b - a) * PI / 180)) / 2)))
      with (cos ((b - a) * PI / 180)) by field.
    rewrite clamp_cos, acos_cos_abs by assumption. apply scaled_abs.
Qed.

Lemma haversineDist_on_meridian_and_equator_witness :
  haversineDist (mkPosition (Fin 30) (Fin (-100))) (mkPosition (Fin 40) (Fin (-100)))
  = Fin (Rabs (40 - 30) * PI / 180).
Proof.
  refine (proj1 (haversineDist_on_meridian_and_equator 30 40 (-100) _)).
  rewrite Rabs_pos_eq; lra.
Defined.

Lemma cos_shift_360 (d : R) : cos ((d + 360) * PI / 180) = cos (d * PI / 180).
Proof.
  replace ((d + 360) * PI / 180) with (d * PI / 180 + 2 * PI) by field.
  rewrite cos_plus, cos_2PI, sin_2PI. ring.
Qed.

(** X4.  In exact arithmetic, longitudes count modulo 360 degrees, and only
    through their difference: shifting the longitude of one point by a full
    turn, or the longitudes of both points by the same amount, leaves the
    distance unchanged, and at a pole ([lat = 90]) the longitude is
    irrelevant.  In the program's doubles the two sides of each equality can
    differ by rounding. *)
Theorem haversineDist_longitude (la lo lb lob t : R) :
  haversineDist (mkPosition (Fin la) (Fin lo)) (mkPosition (Fin lb) (Fin (lob + 360)))
  = haversineDist (mkPosition (Fin la) (Fin lo)) (mkPosition (Fin lb) (Fin lob))
  /\ haversineDist (mkPosition (Fin la) (Fin (lo + t)))
                   (mkPosition (Fin lb) (Fin (lob + t)))
     = haversineDist (mkPosition (Fin la) (Fin lo)) (mkPosition (Fin lb) (Fin lob))
  /\ haversineDist (mkPosition (Fin 90) (Fin lo)) (mkPosition (Fin lb) (Fin lob))
     = haversineDist (mkPosition (Fin 90) (Fin t)) (mkPosition (Fin lb) (Fin lob)).
Proof.
  rewrite !haversineDist_Fin.
  assert (H1 : havTheta la lo lb (lob + 360) = havTheta la lo lb lob).
  { unfold havTheta. replace (lob + 360 - lo) with (lob - lo + 360) by lra.
    now rewrite cos_shift_360. }
  assert (H2 : havTheta la (lo + t) lb (lob + t) = havTheta la lo lb lob).
  { unfold havTheta. now replace (lob + t - (lo + t)) with (lob - lo) by lra. }
  assert (H3 : havTheta 90 lo lb lob = havTheta 90 t lb lob).
  { unfold havTheta. replace (90 * PI / 180) with (PI / 2) by field.
    rewrite cos_PI2. ring. }
  now rewrite H1, H2, H3.
Qed.

(** ** Region: the constructor and the membership test of [Rect] *)

Lemma Math_min_comm (a b : number) : Math.min a b = Math.min b a.
Proof. destruct a, b; simpl; try reflexivity. now rewrite Rmin_comm. Qed.

Lemma Math_max_comm (a b : number) : Math.max a b = Math.max b a.
Proof. destruct a, b; simpl; try reflexivity. now rewrite Rmax_comm. Qed.

Lemma Rmax_minus_Rmin (x y : R) : Rmax x y - Rmin x y = Rabs (x - y).
Proof.
  unfold Rmin, Rmax, Rabs.
  destruct (Rle_dec x y); destruct (Rcase_abs (x - y)); lra.
Qed.

(** X5.  The constructor of [Rect] does not depend on the order of the two
    corners, whatever the coordinates; from finite corners it builds a rect
    with [bottom <= top], [left <= right] and the non-negative area
    [|lat1 - lat2| * |lon1 - lon2|]. *)
Theorem Rect_new_corner_order :
  (forall corner1 corner2, Rect.new corner1 corner2 = Rect.new corner2 corner1)
  /\ (forall lat1 lon1 lat2 lon2 : R,
        exists b t l r,
          corners lat1 lon1 lat2 lon2
          = Rect.mk (Fin b) (Fin t) (Fin l) (Fin r)
                    (Fin (Rabs (lat1 - lat2) * Rabs (lon1 - lon2)))
          /\ b <= t /\ l <= r).
Proof.
  split.
  - intros c1 c2. unfold Rect.new.
    now rewrite (Math_min_comm (lat c1)), (Math_max_comm (lat c1)),
      (Math_min_comm (lon c1)), (Math_max_comm (lon c1)).
  - intros lat1 lon1 lat2 lon2.
    exists (Rmin lat1 lat2), (Rmax lat1 lat2), (Rmin lon1 lon2), (Rmax lon1 lon2).
    split; [| split].
    + unfold corners, Rect.new. simpl. now rewrite !Rmax_minus_Rmin.
    + apply Rle_trans with (1 := Rmin_l _ _). apply Rmax_l.
    + apply Rle_trans with (1 := Rmin_l _ _). apply Rmax_l.
Qed.

Lemma ltb_irrefl (a : number) : (a <? a)%js = false.
Proof. destruct a; simpl; auto. apply Rltb_false. lra. Qed.

(** X6.  [Rect.contains] is the strict interior test.  Whatever the rect
    and the position, a position on one of the four edges is not contained;
    and for a rect built from finite corners, the positions it contains
    are exactly the finite ones strictly between the two latitudes and
    strictly between the two longitudes (none when two corners share a
    coordinate). *)
Theorem Rect_contains_strict_interior :
  (forall r p,
      lat p = Rect.bottom r \/ lat p = Rect.top r
      \/ lon p = Rect.left r \/ lon p = Rect.right r ->
      Rect.contains r p = false)
  /\ (forall (lat1 lon1 lat2 lon2 : R) (p : Position),
        Rect.contains (corners lat1 lon1 lat2 lon2) p = true <->
        exists la lo,
          p = mkPosition (Fin la) (Fin lo)
          /\ Rmin lat1 lat2 < la < Rmax lat1 lat2
          /\ Rmin lon1 lon2 < lo < Rmax lon1 lon2).
Proof.
  split.
  - intros r p H. unfold Rect.contains.
    destruct H as [H | [H | [H | H]]]; rewrite H, ltb_irrefl;
      rewrite ?andb_false_r; reflexivity.
  - intros lat1 lon1 lat2 lon2 p. split.
    + intros H.
      pose proof (Rect_contains_finite _ p (corners_valid lat1 lon1 lat2 lon2) H) as Hf.
      destruct (finitePosition_inv p Hf) as (la & lo & ->).
      exists la, lo. split; [reflexivity |].
      unfold corners, Rect.new, Rect.contains in H. simpl in H.
      rewrite !andb_true_iff, !Rltb_spec in H. tauto.
    + intros (la & lo & -> & Hla & Hlo).
      unfold corners, Rect.new, Rect.contains. simpl.
      rewrite !andb_true_iff, !Rltb_spec. tauto.
Qed.

Lemma fold_add_NaN (l : list number) :
  forall t, t = NaN \/ In NaN l -> fold_left Num.add l t = NaN.
Proof.
  induction l as [| a l IH]; intros t [Ht | Hin]; simpl.
  - exact Ht.
  - contradiction.
  - apply IH. left. now rewrite Ht.
  - destruct Hin as [-> | Hin]; apply IH; [left; apply add_NaN_r | now right].
Qed.

Lemma Rect_new_NaN_area (corner1 corner2 : Position) :
  Num.isNaN (lat corner1) || Num.isNaN (lon corner1)
  || Num.isNaN (lat corner2) || Num.isNaN (lon corner2) = true ->
  Rect.area (Rect.new corner1 corner2) = NaN.
Proof.
  destruct corner1 as [[x1 | | |] [y1 | | |]], corner2 as [[x2 | | |] [y2 | | |]];
    simpl; intros H; try discriminate; try reflexivity;
    unfold Num.scaleInf; repeat (destruct (Reqb _ _)); reflexivity.
Qed.

(** X7.  A region one of whose rects was built from a corner with a [NaN]
    coordinate cannot be sampled: whatever the draws, [random] falls
    through its loop and throws the error "this shouldn't happen". *)
Theorem random_throws_on_NaN_corner (src : RandomSource) (first : Rect.t)
    (rest : list Rect.t) (corner1 corner2 : Position) (c : nat) :
  In (Rect.new corner1 corner2) (first :: rest) ->
  Num.isNaN (lat corner1) || Num.isNaN (lon corner1)
  || Num.isNaN (lat corner2) || Num.isNaN (lon corner2) = true ->
  MultiRect.random src (MultiRect.make first rest) c
  = Throws (Error "this shouldn't happen"%string).
Proof.
  intros Hin Hnan.
  pose proof (Rect_new_NaN_area corner1 corner2 Hnan) as Harea.
  assert (HT : MultiRect.totalArea (MultiRect.make first rest) = NaN).
  { unfold MultiRect.make. cbn [MultiRect.totalArea]. apply fold_add_NaN.
    destruct Hin as [-> | Hin]; [now left | right].
    rewrite <- Harea. now apply in_map. }
  unfold MultiRect.random, bind, Math_random. rewrite HT. cbn [Num.mul].
  apply pick_none. intros j _. reflexivity.
Qed.

Lemma random_throws_on_NaN_corner_witness :
  MultiRect.random halfDraws
    (MultiRect.make (Rect.new (mkPosition NaN (Fin 0)) (mkPosition (Fin 1) (Fin 1))) [])
    0%nat
  = Throws (Error "this shouldn't happen"%string).
Proof.
  exact (random_throws_on_NaN_corner halfDraws _ [] (mkPosition NaN (Fin 0))
           (mkPosition (Fin 1) (Fin 1)) 0 (or_introl eq_refl) eq_refl).
Defined.

(** ** ParticleStreamSimulator: spawning *)

Lemma trunc_scaled (u d : R) :
  0 <= u < 1 ->
  exists k : Z,
    Math.trunc (Fin u * Math.abs (Fin d))%js = Fin (IZR k)
    /\ (0 <= k)%Z /\ IZR k <= u * Rabs d.
Proof.
  intros Hu. pose proof (Rabs_pos d) as Hd.
  assert (Hx : 0 <= u * Rabs d) by nra.
  exists (Int_part (u * Rabs d)). simpl. unfold Math.Ztrunc.
  rewrite (Rleb_true _ _ Hx). split; [reflexivity |].
  split; [now apply Int_part_nonneg | apply base_Int_part].
Qed.

Lemma fresh_ttl (src : RandomSource) (first : Rect.t) (rest : list Rect.t)
    (mn mx : R) (c : nat) :
  (forall n, 0 <= src n < 1) ->
  Forall Rect_valid (first :: rest) ->
  exists la lo k,
    MultiRect.randomStream src (MultiRect.make first rest) (Fin mn) (Fin mx) c
    = Returns (Stream.mk (mkPosition (Fin la) (Fin lo)) (Fin (mn + IZR k)),
               (4 + c)%nat)
    /\ (0 <= k)%Z
    /\ IZR k <= src (3 + c)%nat * Rabs (mx - mn).
Proof.
  intros Hsrc Hv.
  destruct (randomStream_valid src Hsrc first rest (Fin mn) (Fin mx) c Hv)
    as (la & lo & Hrun).
  destruct (trunc_scaled (src (3 + c)%nat) (mx - mn) (Hsrc _))
    as (k & Hk & Hk0 & Hk1).
  exists la, lo, k. rewrite Hrun. cbn [Num.sub]. rewrite Hk. repeat split; auto.
Qed.

(** X8.  A spawned particle.  On a region of valid rects and for finite
    bounds, [randomStream] makes exactly four draws and returns a particle
    at a finite position whose [ttl] is [minTicks] plus a non-negative
    integer: it lies in [[minTicks, minTicks + |maxTicks - minTicks|)], and
    is [minTicks] itself when the two bounds are equal. *)
Theorem spawned_ttl_range (src : RandomSource) (first : Rect.t)
    (rest : list Rect.t) (mn mx : R) (c : nat) :
  (forall n, 0 <= src n < 1) ->
  Forall Rect_valid (first :: rest) ->
  exists s k,
    MultiRect.randomStream src (MultiRect.make first rest) (Fin mn) (Fin mx) c
    = Returns (s, (4 + c)%nat)
    /\ finitePosition (Stream.pos s) = true
    /\ Stream.ttl s = Fin (mn + IZR k)
    /\ (0 <= k)%Z
    /\ (mx <> mn -> mn + IZR k < mn + Rabs (mx - mn))
    /\ (mx = mn -> Stream.ttl s = Fin mn).
Proof.
  intros Hsrc Hv.
  destruct (fresh_ttl src first rest mn mx c Hsrc Hv)
    as (la & lo & k & Hrun & Hk0 & Hk1).
  pose proof (Hsrc (3 + c)%nat) as Hu.
  eexists _, k. split; [exact Hrun |]. cbn [Stream.pos Stream.ttl].
  split; [reflexivity |]. split; [reflexivity |]. split; [exact Hk0 |]. split.
  - intros Hne.
    assert (0 < Rabs (mx - mn)) by (apply Rabs_pos_lt; lra). nra.
  - intros ->. f_equal.
    replace (mn - mn) with 0 in Hk1 by lra. rewrite Rabs_R0 in Hk1.
    apply IZR_le in Hk0. lra.
Qed.

Lemma spawned_ttl_range_witness :
  exists s k,
    MultiRect.randomStream halfDraws USA_OUTER (Fin 5) (Fin 10) 0%nat
    = Returns (s, 4%nat)
    /\ Stream.ttl s = Fin (5 + IZR k) /\ (0 <= k)%Z /\ 5 + IZR k < 5 + Rabs (10 - 5).
Proof.
  destruct (spawned_ttl_range halfDraws _ _ 5 10 0 halfDraws_range USA_OUTER_valid)
    as (s & k & Hrun & _ & Httl & Hk & Hlt & _).
  exists s, k. repeat split; auto. apply Hlt. lra.
Defined.

Lemma replicateM_run {A : Type} (m : M A) (P : A -> Prop) :
  (forall c, exists x, m c = Returns (x, (4 + c)%nat) /\ P x) ->
  forall n c, exists l,
    replicateM n m c = Returns (l, (4 * n + c)%nat)
    /\ length l = n /\ Forall P l.
Proof.
  intros Hm. induction n as [| n IH]; intros c.
  - exists []. repeat split; constructor.
  - destruct (Hm c) as (x & Hx & HP). destruct (IH (4 + c)%nat) as (l & Hl & Hlen & HPl).
    exists (x :: l). simpl replicateM. unfold bind. rewrite Hx, Hl. unfold ret.
    split; [do 2 f_equal; lia |]. split; [simpl; lia | now constructor].
Qed.

(** X9.  [makeUpdate].  A negative number of points, or one above
    [2^32 - 1], makes it throw a [RangeError] before any draw.  Otherwise,
    with draws in [[0, 1)], it returns after exactly four draws per
    particle, with the configured tick duration and a pool of [numPoints]
    particles, each at a finite position and with a [ttl] of the form
    [minTicks + trunc(d * |maxTicks - minTicks|)] for a draw [d]. *)
Theorem makeUpdate_pool (src : RandomSource) (numPoints : Z)
    (maxWindow tickDuration0 : number) (c : nat) :
  ((numPoints < 0 \/ 4294967295 < numPoints)%Z ->
   makeUpdate src numPoints maxWindow tickDuration0 c
   = Throws (RangeError "Invalid array length"%string))
  /\ ((forall n, 0 <= src n < 1) ->
      (0 <= numPoints <= 4294967295)%Z ->
      exists u,
        makeUpdate src numPoints maxWindow tickDuration0 c
        = Returns (u, (4 * Z.to_nat numPoints + c)%nat)
        /\ tickDuration u = tickDuration0
        /\ length (streams u) = Z.to_nat numPoints
        /\ Forall (fun s =>
                     finitePosition (Stream.pos s) = true
                     /\ exists d, 0 <= d < 1
                          /\ Stream.ttl s
                             = (minTicks u
                                + Math.trunc (Fin d * Math.abs (maxTicks u - minTicks u)))%js)
                  (streams u)).
Proof.
  split.
  - intros Hbad. unfold makeUpdate.
    replace ((numPoints <? 0)%Z || (4294967295 <? numPoints)%Z) with true; [reflexivity |].
    symmetry. apply orb_true_iff.
    destruct Hbad; [left | right]; now apply Z.ltb_lt.
  - intros Hsrc Hn. unfold makeUpdate.
    replace ((numPoints <? 0)%Z || (4294967295 <? numPoints)%Z) with false
      by (symmetry; apply orb_false_iff; split; apply Z.ltb_ge; lia).
    set (mx := maxTicksOf maxWindow tickDuration0). set (mn := minTicksOf mx).
    destruct (replicateM_run (MultiRect.randomStream src USA_OUTER mn mx)
                (fun s => finitePosition (Stream.pos s) = true
                          /\ exists d, 0 <= d < 1
                               /\ Stream.ttl s
                                  = (mn + Math.trunc (Fin d * Math.abs (mx - mn)))%js))
      with (n := Z.to_nat numPoints) (c := c) as (l & Hl & Hlen & HP).
    { intros c0.
      destruct (randomStream_USA_OUTER src Hsrc mn mx c0) as (la & lo & Hrun).
      eexists. split; [exact Hrun |]. split; [reflexivity |].
      exists (src (3 + c0)%nat). split; [apply Hsrc | reflexivity]. }
    eexists. unfold bind. rewrite Hl. unfold ret.
    split; [reflexivity |]. cbn [tickDuration streams minTicks maxTicks].
    repeat split; assumption.
Qed.

(** ** ParticleStreamSimulator: ticks *)

Lemma processAll_no_respawn (src : RandomSource) (u : Update)
    (interpolator : Interpolator) (l : list Stream.t) :
  forall c,
    Forall (fun s => needsRespawn s = false) l ->
    processAll src u interpolator l c
    = Returns ((map (fun s => fst (advect u interpolator s)) l,
                map (fun s => snd (advect u interpolator s)) l), c).
Proof.
  induction l as [| s l IH]; intros c H; [reflexivity |].
  inversion H as [| ? ? Hs Hl]; subst.
  rewrite processAll_cons. unfold processStream at 1. rewrite Hs.
  unfold bind, ret. rewrite (IH c Hl). reflexivity.
Qed.

(** X10.  A tick in which no particle needs a respawn is a pure map: it
    makes no draw (so it needs no assumption on the random source), every
    particle is moved to where the interpolator sends it over one tick
    duration and loses one unit of [ttl], and segment [i] joins the old and
    the new position of particle [i]. *)
Theorem tick_without_respawn (src : RandomSource) (u : Update)
    (interpolator : Interpolator) (c : nat) :
  Forall (fun s => needsRespawn s = false) (streams u) ->
  update src u interpolator c
  = Returns
      ((map (fun s => (Stream.pos s,
                       fst (interpolator (Stream.pos s) (tickDuration u))))
            (streams u),
        mkUpdate (tickDuration u) (minTicks u) (maxTicks u)
          (map (fun s =>
                  Stream.mk (fst (interpolator (Stream.pos s) (tickDuration u)))
                            (Stream.ttl s - Fin 1)%js)
               (streams u))),
       c).
Proof.
  intros H. rewrite update_processAll, processAll_no_respawn by assumption.
  reflexivity.
Qed.

Lemma tick_without_respawn_witness :
  update halfDraws (poolOfOne 3) emptyInterpolator 0%nat
  = Returns
      (([(kansas, fst (emptyInterpolator kansas (Fin 0.5)))],
        mkUpdate (Fin 0.5) (Fin 5) (Fin 10)
          [Stream.mk (fst (emptyInterpolator kansas (Fin 0.5))) (Fin 3 - Fin 1)%js]),
       0%nat).
Proof.
  refine (tick_without_respawn halfDraws (poolOfOne 3) emptyInterpolator 0 _).
  constructor; [| constructor].
  unfold needsRespawn. cbn [Stream.ttl Stream.pos].
  rewrite kansas_in_USA_OUTER. simpl. rewrite Rleb_false by lra. reflexivity.
Defined.

(** X11.  A tick makes exactly four draws for each particle it respawns,
    and no other draw. *)
Theorem tick_draw_count (src : RandomSource) (u : Update)
    (interpolator : Interpolator) (c : nat) :
  (forall n, 0 <= src n < 1) ->
  exists ds u',
    update src u interpolator c
    = Returns ((ds, u'), (4 * respawns (streams u) + c)%nat).
Proof.
  intros Hsrc. rewrite update_processAll.
  assert (H : forall l c0, exists l' ds,
             processAll src u interpolator l c0
             = Returns ((l', ds), (4 * respawns l + c0)%nat)).
  { induction l as [| s l IH]; intros c0.
    - exists [], []. reflexivity.
    - rewrite processAll_cons.
      pose proof (processStream_run src u interpolator Hsrc s c0) as Hs.
      unfold respawns. cbn [filter]. fold (respawns l).
      destruct (needsRespawn s).
      + destruct Hs as (la & lo & _ & Hs). rewrite Hs.
        destruct (IH (4 + c0)%nat) as (l' & ds & Hl). rewrite Hl.
        eexists _, _. unfold respawns in *. cbn [length]. do 2 f_equal. lia.
      + rewrite Hs. destruct (IH c0) as (l' & ds & Hl). rewrite Hl.
        eexists _, _. reflexivity. }
  destruct (H (streams u) c) as (l' & ds & Hl). rewrite Hl.
  eexists _, _. reflexivity.
Qed.

Lemma tick_draw_count_witness :
  exists ds u',
    update halfDraws (poolOfOne 0) emptyInterpolator 0%nat
    = Returns ((ds, u'), (4 * respawns (streams (poolOfOne 0)) + 0)%nat).
Proof.
  exact (tick_draw_count halfDraws (poolOfOne 0) emptyInterpolator 0 halfDraws_range).
Defined.

Lemma Forall_nth_error_transfer {A B : Type} (P : A -> Prop) (Q : B -> Prop)
    (l : list A) (l' : list B) :
  length l' = length l ->
  (forall i a, nth_error l i = Some a -> exists b, nth_error l' i = Some b /\ Q b) ->
  Forall Q l'.
Proof.
  intros Hlen H. apply Forall_forall. intros b Hb.
  apply In_nth_error in Hb. destruct Hb as [i Hi].
  destruct (nth_error l i) as [a |] eqn:Ha.
  - destruct (H i a Ha) as (b' & Hb' & HQ). rewrite Hi in Hb'. now injection Hb' as <-.
  - apply nth_error_None in Ha.
    assert (i < length l')%nat by (apply nth_error_Some; rewrite Hi; discriminate).
    lia.
Qed.

(** X12.  The lifetime counter stays in range.  With finite bounds and a
    positive [minTicks]: if every particle's [ttl] is finite and at most
    [minTicks + |maxTicks - minTicks|] (as in the pool [makeUpdate]
    builds), then after a tick every [ttl] is finite, greater than [-1]
    and at most [minTicks + |maxTicks - minTicks| - 1]. *)
Theorem ttl_stays_in_range (src : RandomSource) (u : Update)
    (interpolator : Interpolator) (c : nat) (mn mx : R) :
  (forall n, 0 <= src n < 1) ->
  minTicks u = Fin mn -> maxTicks u = Fin mx -> 0 < mn ->
  Forall (fun s => exists t, Stream.ttl s = Fin t /\ t <= mn + Rabs (mx - mn))
         (streams u) ->
  exists ds u' c',
    update src u interpolator c = Returns ((ds, u'), c')
    /\ Forall (fun s => exists t, Stream.ttl s = Fin t
                                  /\ -1 < t <= mn + Rabs (mx - mn) - 1)
              (streams u').
Proof.
  intros Hsrc Hmn Hmx Hpos Hpool.
  destruct (update_slots src u interpolator c Hsrc)
    as (ds & l' & c' & Hrun & _ & Hl & _ & Hslot).
  exists ds, (mkUpdate (tickDuration u) (minTicks u) (maxTicks u) l'), c'.
  split; [exact Hrun |]. cbn [streams].
  apply (Forall_nth_error_transfer (fun _ => True) _ (streams u) l' Hl).
  intros i s Hi. destruct (Hslot i s Hi) as [Hkeep Hre].
  rewrite Forall_forall in Hpool.
  destruct (Hpool s (nth_error_In _ _ Hi)) as (t & Ht & Hle).
  destruct (needsRespawn s) eqn:Hr.
  - destruct (Hre eq_refl) as (fresh & cf & _ & _ & Hfresh & _ & Hl' & _).
    eexists. split; [exact Hl' |]. unfold advect. cbn [fst Stream.ttl].
    rewrite Hmn, Hmx in Hfresh.
    destruct (fresh_ttl src _ _ mn mx cf Hsrc USA_OUTER_valid)
      as (la & lo & k & Hrun' & Hk0 & Hk1).
    change (MultiRect.make _ _) with USA_OUTER in Hrun'.
    rewrite Hrun' in Hfresh. injection Hfresh as <-. cbn [Stream.ttl Num.sub].
    eexists. split; [reflexivity |].
    pose proof (Hsrc (3 + cf)%nat). pose proof (Rabs_pos (mx - mn)).
    apply IZR_le in Hk0. nra.
  - destruct (Hkeep eq_refl) as [Hl' _].
    eexists. split; [exact Hl' |]. unfold advect. cbn [fst Stream.ttl].
    rewrite Ht. cbn [Num.sub]. eexists. split; [reflexivity |].
    unfold needsRespawn in Hr. apply orb_false_iff in Hr. destruct Hr as [Hr _].
    rewrite Ht in Hr. simpl in Hr.
    assert (~ t <= 0) by (intros Hc; rewrite (Rleb_true _ _ Hc) in Hr; discriminate).
    lra.
Qed.

Lemma ttl_stays_in_range_witness :
  exists ds u' c',
    update halfDraws (poolOfOne 3) emptyInterpolator 0%nat = Returns ((ds, u'), c')
    /\ Forall (fun s => exists t, Stream.ttl s = Fin t
                                  /\ -1 < t <= 5 + Rabs (10 - 5) - 1)
              (streams u').
Proof.
  refine (ttl_stays_in_range halfDraws (poolOfOne 3) emptyInterpolator 0 5 10
            halfDraws_range eq_refl eq_refl _ _).
  - lra.
  - constructor; [| constructor]. exists 3. split; [reflexivity |].
    rewrite Rabs_pos_eq; lra.
Defined.

Lemma runTicks_S (src : RandomSource) (interpolator : Interpolator) (n : nat)
    (u : Update) (c : nat) :
  runTicks src interpolator (S n) u c =
  match update src u interpolator c with
  | Returns ((ds, u1), c1) =>
      match runTicks src interpolator n u1 c1 with
      | Returns ((outs, u2), c2) => Returns ((ds :: outs, u2), c2)
      | Throws e => Throws e
      end
  | Throws e => Throws e
  end.
Proof.
  simpl. unfold bind.
  destruct (update src u interpolator c) as [[[ds u1] c1] | e]; [| reflexivity].
  cbn [snd fst].
  destruct (runTicks src interpolator n u1 c1) as [[[outs u2] c2] | e]; reflexivity.
Qed.

(** X13.  A particle lives [ttl] ticks.  A particle with [ttl = k] whose
    next [k] positions under the interpolator stay inside the region is
    advected by each of the next [k] ticks and respawned by none of them:
    after [k] ticks it stands at the end of that trajectory with
    [ttl = 0], and its [k] segments chain, each starting where the
    previous one ended. *)
Theorem particle_lives_ttl_ticks (src : RandomSource)
    (interpolator : Interpolator) (hours mn mx : number) (k : nat) :
  (forall n, 0 <= src n < 1) ->
  forall (l : list Stream.t) (i : nat) (s : Stream.t) (c : nat),
    nth_error l i = Some s ->
    Stream.ttl s = Fin (INR k) ->
    (forall j, (j < k)%nat ->
       MultiRect.contains USA_OUTER
         (trajectory interpolator hours j (Stream.pos s)) = true) ->
    exists outs u' c',
      runTicks src interpolator k (mkUpdate hours mn mx l) c
      = Returns ((outs, u'), c')
      /\ nth_error (streams u') i
         = Some (Stream.mk (trajectory interpolator hours k (Stream.pos s)) (Fin 0))
      /\ forall j, (j < k)%nat ->
           exists ds, nth_error outs j = Some ds
             /\ nth_error ds i
                = Some (trajectory interpolator hours j (Stream.pos s),
                        trajectory interpolator hours (S j) (Stream.pos s)).
Proof.
  intros Hsrc. induction k as [| k IH]; intros l i s c Hi Httl Hin.
  - exists [], (mkUpdate hours mn mx l), c. split; [reflexivity |].
    split; [| intros j Hj; lia].
    cbn [streams trajectory]. rewrite Hi. destruct s as [p t].
    cbn [Stream.ttl] in Httl. now rewrite Httl.
  - set (u := mkUpdate hours mn mx l).
    destruct (update_slots src u interpolator c Hsrc)
      as (ds & l1 & c1 & Hrun & _ & _ & _ & Hslot).
    cbn [tickDuration minTicks maxTicks u] in Hrun. fold u in Hrun.
    assert (Hkeep : needsRespawn s = false).
    { pose proof (Hin O ltac:(lia)) as H0. cbn [trajectory] in H0.
      unfold needsRespawn. rewrite Httl, H0. cbn [Num.leb negb].
      rewrite Rleb_false; [reflexivity |].
      pose proof (pos_INR k). rewrite S_INR. lra. }
    destruct (Hslot i s Hi) as [Hs _]. destruct (Hs Hkeep) as [Hl1 Hd1].
    unfold advect in Hl1, Hd1. cbn [fst snd tickDuration u] in Hl1, Hd1.
    rewrite Httl in Hl1. cbn [Num.sub] in Hl1.
    replace (INR (S k) - 1) with (INR k) in Hl1 by (rewrite S_INR; lra).
    set (p1 := fst (interpolator (Stream.pos s) hours)) in *.
    destruct (IH l1 i (Stream.mk p1 (Fin (INR k))) c1 Hl1 eq_refl)
      as (outs & u' & c' & Hrest & Hfinal & Hsegs).
    { intros j Hj. apply (Hin (S j)). lia. }
    exists (ds :: outs), u', c'. rewrite runTicks_S, Hrun, Hrest.
    split; [reflexivity |]. split; [exact Hfinal |].
    intros [| j] Hj.
    + exists ds. split; [reflexivity | exact Hd1].
    + destruct (Hsegs j ltac:(lia)) as (ds' & Hds' & Hseg).
      exists ds'. split; [exact Hds' | exact Hseg].
Qed.

Lemma emptyInterpolator_still (p : Position) (j : nat) :
  finitePosition p = true -> trajectory emptyInterpolator (Fin 0.5) j p = p.
Proof.
  intros Hp. destruct (finitePosition_inv p Hp) as (la & lo & ->).
  induction j as [| j IH]; [reflexivity |].
  cbn [trajectory]. unfold emptyInterpolator at 2.
  rewrite empty_eval by reflexivity. cbn [fst lat lon].
  now rewrite !no_displacement.
Qed.

Lemma particle_lives_ttl_ticks_witness :
  exists outs u' c',
    runTicks halfDraws emptyInterpolator 3 (poolOfOne (INR 3)) 0%nat
    = Returns ((outs, u'), c')
    /\ nth_error (streams u') 0
       = Some (Stream.mk (trajectory emptyInterpolator (Fin 0.5) 3 kansas) (Fin 0)).
Proof.
  destruct (particle_lives_ttl_ticks halfDraws emptyInterpolator (Fin 0.5)
              (Fin 5) (Fin 10) 3 halfDraws_range
              [Stream.mk kansas (Fin (INR 3))] 0 (Stream.mk kansas (Fin (INR 3))) 0
              eq_refl eq_refl)
    as (outs & u' & c' & Hrun & Hfinal & _).
  - intros j _. cbn [Stream.pos].
    rewrite emptyInterpolator_still by reflexivity. exact kansas_in_USA_OUTER.
  - exists outs, u', c'. split; assumption.
Defined.

(** ** WindFieldInterpolator: the kernel matrix and the two channels *)

(** X14.  Whatever the basis function and the norm (symmetric or not), the
    kernel matrix is symmetric with a unit diagonal: the entry of two
    distinct reports is the basis weight computed once, with the report of
    the larger index as first argument of the norm, and stored at both
    places. *)
Theorem kernel_matrix_symmetric (opts : InterpolatorOptions)
    (reports : list StationReport) (i j : nat) :
  (i < length reports)%nat -> (j < length reports)%nat ->
  Matrix.get (makeBases opts reports) i j = Matrix.get (makeBases opts reports) j i
  /\ Matrix.get (makeBases opts reports) i i = Fin 1
  /\ ((j < i)%nat ->
      Matrix.get (makeBases opts reports) i j
      = basisFn opts (norm opts (pos (nth i reports undefinedReport))
                                (pos (nth j reports undefinedReport)))).
Proof.
  intros Hi Hj. destruct (makeBases_spec opts reports) as [_ Hget].
  rewrite !Hget by assumption. unfold basesEntry, kernel.
  split; [| split].
  - index_cases.
  - now rewrite Nat.eqb_refl.
  - intros Hlt. index_cases.
Qed.

Lemma kernel_matrix_symmetric_witness :
  Matrix.get (makeBases defaultOptions [northerly; missing]) 1 0
  = Matrix.get (makeBases defaultOptions [northerly; missing]) 0 1.
Proof.
  exact (proj1 (kernel_matrix_symmetric defaultOptions [northerly; missing] 1 0
                  (le_n 2) (le_S 1 1 (le_n 1)))).
Defined.

Lemma default_basis_range (d : R) :
  exists k, basisFn defaultOptions (Fin d) = Fin k /\ 0 < k <= 1.
Proof.
  exists (exp (-300 * (d * d))). split; [reflexivity |].
  split; [apply exp_pos |].
  assert (H : -300 * (d * d) <= 0) by nra.
  destruct H as [H | H].
  - rewrite <- exp_0. left. now apply exp_increasing.
  - rewrite H, exp_0. lra.
Qed.

(** X15.  In exact arithmetic, with the default options and reports at
    finite positions, every entry of the kernel matrix is a finite number in
    [(0, 1]].  Positivity rests on the real exponential: in the program's
    doubles the Gaussian underflows to exactly 0 for stations more than
    about 1.58 radians apart, and the entries lie in [[0, 1]]. *)
Theorem default_kernel_entries (reports : list StationReport) (i j : nat) :
  Forall (fun r => finitePosition (pos r) = true) reports ->
  (i < length reports)%nat -> (j < length reports)%nat ->
  exists k, Matrix.get (makeBases defaultOptions reports) i j = Fin k
            /\ 0 < k <= 1.
Proof.
  intros Hfin Hi Hj. destruct (makeBases_spec defaultOptions reports) as [_ Hget].
  rewrite Hget by assumption. unfold basesEntry.
  assert (Hk : forall a b, (a < length reports)%nat -> (b < length reports)%nat ->
            exists k, kernel defaultOptions reports a b = Fin k /\ 0 < k <= 1).
  { intros a b Ha Hb. unfold kernel. cbn [norm defaultOptions].
    destruct (finitePosition_inv _ (nth_finite reports a Hfin Ha)) as (la & lo & ->).
    destruct (finitePosition_inv _ (nth_finite reports b Hfin Hb)) as (lb & lob & ->).
    rewrite haversineDist_Fin. apply default_basis_range. }
  destruct (Nat.eqb i j); [exists 1; split; [reflexivity | lra] |].
  destruct (Nat.ltb j i); now apply Hk.
Qed.

Lemma default_kernel_entries_witness :
  exists k, Matrix.get (makeBases defaultOptions [northerly; missing]) 1 0 = Fin k
            /\ 0 < k <= 1.
Proof.
  exact (default_kernel_entries [northerly; missing] 1 0
           ltac:(repeat constructor) (le_n 2) (le_S 1 1 (le_n 1))).
Defined.

Lemma tan_shift_PI (x : R) : cos x <> 0 -> tan (x + PI) = tan x.
Proof.
  intros Hc. unfold tan. rewrite neg_sin, neg_cos. field. exact Hc.
Qed.

Lemma polar_quotient (s x : R) :
  0 < s -> cos x <> 0 -> s * sin x / (s * cos x) = tan x.
Proof. intros Hs Hc. unfold tan. field. split; lra. Qed.

(** The angle of the point at distance [s] in direction [theta]. *)
Lemma Ratan2_polar (s theta : R) :
  0 < s -> - PI < theta <= PI ->
  Math.Ratan2 (s * sin theta) (s * cos theta) = theta.
Proof.
  intros Hs [Hlo Hhi]. pose proof PI_RGT_0 as Hpi. unfold Math.Ratan2.
  destruct (Rlt_dec theta (- (PI / 2))) as [Hq3 | Hq3'].
  { (* third quadrant *)
    assert (Hc : cos theta < 0).
    { rewrite <- cos_neg. apply cos_lt_0; lra. }
    assert (Hsn : sin theta < 0) by (apply sin_lt_0_var; lra).
    rewrite (Rltb_false 0 (s * cos theta)) by nra.
    rewrite (Rltb_true (s * cos theta) 0) by nra.
    rewrite (Rleb_false 0 (s * sin theta)) by nra.
    rewrite polar_quotient by lra. rewrite <- (tan_shift_PI theta) by lra.
    rewrite atan_tan by lra. lra. }
  destruct (Req_dec_T theta (- (PI / 2))) as [-> | Hne1].
  { rewrite cos_neg, sin_neg, cos_PI2, sin_PI2. rdecide. reflexivity. }
  destruct (Rlt_dec theta (PI / 2)) as [Hq1 | Hq1'].
  { assert (Hc : 0 < cos theta) by (apply cos_gt_0; lra).
    rewrite (Rltb_true 0 (s * cos theta)) by nra.
    rewrite polar_quotient by lra. apply atan_tan. lra. }
  destruct (Req_dec_T theta (PI / 2)) as [-> | Hne2].
  { rewrite cos_PI2, sin_PI2. rdecide. reflexivity. }
  (* second quadrant *)
  assert (Hc : cos theta < 0) by (apply cos_lt_0; lra).
  assert (Hsn : 0 <= sin theta) by (apply sin_ge_0; lra).
  rewrite (Rltb_false 0 (s * cos theta)) by nra.
  rewrite (Rltb_true (s * cos theta) 0) by nra.
  rewrite (Rleb_true 0 (s * sin theta)) by nra.
  rewrite polar_quotient by lra.
  replace (tan theta) with (tan (theta - PI)).
  - rewrite atan_tan by lra. lra.
  - rewrite <- (tan_shift_PI (theta - PI)).
    + f_equal. lra.
    + replace theta with (theta - PI + PI) in Hc by lra. rewrite neg_cos in Hc. lra.
Qed.

Lemma polar_speed (s x : R) :
  0 <= s -> sqrt (s * cos x * (s * cos x) + s * sin x * (s * sin x)) = s.
Proof.
  intros Hs.
  replace (s * cos x * (s * cos x) + s * sin x * (s * sin x))
    with (s * s * ((sin x)² + (cos x)²)) by (unfold Rsqr; ring).
  rewrite sin2_cos2, Rmult_1_r. now apply sqrt_square.
Qed.

(** X16.  The two channels of a wind and the wind recomputed from them.
    For a report of finite speed [s >= 0] and finite direction [d], the
    wind the closure computes from the channels [s*cos(d)] and [s*sin(d)]
    has speed [s]; when [s > 0] its direction is [d] itself for
    [-180 < d <= 180], and [d - 360] for [180 < d <= 540] (so a reported
    direction of 270 degrees reads back as -90). *)
Theorem wind_channels_round_trip (r : StationReport) (s d : R) :
  wind r = mkWind (Fin d) (Fin s) ->
  0 <= s ->
  Math.hypot (latSpeedOf r) (lonSpeedOf r) = Fin s
  /\ (0 < s -> -180 < d <= 180 ->
      degrees (Math.atan2 (lonSpeedOf r) (latSpeedOf r)) = Fin d)
  /\ (0 < s -> 180 < d <= 540 ->
      degrees (Math.atan2 (lonSpeedOf r) (latSpeedOf r)) = Fin (d - 360)).
Proof.
  intros Hw Hs. pose proof PI_RGT_0 as Hpi.
  unfold latSpeedOf, lonSpeedOf. rewrite Hw. cbn [speed dir].
  rewrite radians_Fin. cbn [Math.cos Math.sin Num.mul Math.hypot Math.atan2].
  split; [| split].
  - f_equal. now apply polar_speed.
  - intros Hpos Hd. rewrite Ratan2_polar.
    + rewrite degrees_Fin. f_equal. field. lra.
    + exact Hpos.
    + split; [| apply Rmult_le_reg_r with (180 / PI)].
      * replace (- PI) with (-180 * PI / 180) by field. nra.
      * apply Rdiv_lt_0_compat; lra.
      * replace (d * PI / 180 * (180 / PI)) with d by (field; lra).
        replace (PI * (180 / PI)) with 180 by (field; lra). lra.
  - intros Hpos Hd.
    assert (Hcos : cos (d * PI / 180) = cos ((d - 360) * PI / 180)).
    { rewrite <- (cos_shift_360 (d - 360)). f_equal. lra. }
    assert (Hsin : sin (d * PI / 180) = sin ((d - 360) * PI / 180)).
    { replace (d * PI / 180) with ((d - 360) * PI / 180 + 2 * PI) by field.
      rewrite sin_plus, cos_2PI, sin_2PI. ring. }
    rewrite Hcos, Hsin, Ratan2_polar.
    + rewrite degrees_Fin. f_equal. field. lra.
    + exact Hpos.
    + split.
      * replace (- PI) with (-180 * PI / 180) by field. nra.
      * replace PI with (180 * PI / 180) at 2 by field. nra.
Qed.

Lemma wind_channels_round_trip_witness :
  Math.hypot (latSpeedOf northerly) (lonSpeedOf northerly) = Fin 10
  /\ degrees (Math.atan2 (lonSpeedOf northerly) (latSpeedOf northerly)) = Fin 0.
Proof.
  destruct (wind_channels_round_trip northerly 10 0 eq_refl ltac:(lra))
    as (Hspeed & Hdir & _).
  split; [exact Hspeed | apply Hdir; lra].
Defined.

(** ** Spawn lifetime bounds, continued *)

Lemma Rmin_IZR (a b : Z) : Rmin (IZR a) (IZR b) = IZR (Z.min a b).
Proof.
  destruct (Z.le_ge_cases a b) as [H | H].
  - rewrite Z.min_l by assumption. apply Rmin_left. now apply IZR_le.
  - rewrite Z.min_r by assumption. apply Rmin_right. now apply IZR_le.
Qed.

(** X17.  The derived bounds are ordered.  Whenever the quotient
    [window / tick] is not negative (a finite quotient, or [+Infinity] for a
    zero tick), [maxTicks] and [minTicks] are integers with
    [0 <= minTicks <= maxTicks <= 10] and [minTicks <= 5]. *)
Theorem spawn_bounds_ordered (maxWindow tickDuration0 : number) :
  (Fin 0 <=? maxWindow / tickDuration0)%js = true ->
  exists a b : Z,
    maxTicksOf maxWindow tickDuration0 = Fin (IZR b)
    /\ minTicksOf (maxTicksOf maxWindow tickDuration0) = Fin (IZR a)
    /\ (0 <= a <= b)%Z /\ (b <= 10)%Z /\ (a <= 5)%Z.
Proof.
  intros Hq.
  assert (Hmax : exists b : Z,
             maxTicksOf maxWindow tickDuration0 = Fin (IZR b) /\ (0 <= b <= 10)%Z).
  { unfold maxTicksOf.
    destruct (maxWindow / tickDuration0)%js as [q | | |]; try discriminate.
    - simpl in Hq. apply Rleb_spec in Hq.
      exists (Z.min 10 (Int_part q)). simpl. unfold Math.Ztrunc.
      rewrite (Rleb_true _ _ Hq), Rmin_IZR. split; [reflexivity |].
      pose proof (Int_part_nonneg q Hq). lia.
    - exists 10%Z. split; [reflexivity | lia]. }
  destruct Hmax as (b & Hb & Hb0 & Hb10). rewrite Hb.
  assert (Hx : 0 <= 0.7 * IZR b) by (apply IZR_le in Hb0; lra).
  exists (Z.min 5 (Int_part (0.7 * IZR b))), b.
  split; [reflexivity |]. split.
  - unfold minTicksOf. simpl. unfold Math.Ztrunc.
    now rewrite (Rleb_true _ _ Hx), Rmin_IZR.
  - pose proof (Int_part_nonneg _ Hx) as Ha0.
    destruct (base_Int_part (0.7 * IZR b)) as [Hle _].
    assert (Hab : (Int_part (0.7 * IZR b) <= b)%Z).
    { apply le_IZR. apply IZR_le in Hb0. lra. }
    lia.
Qed.

Lemma spawn_bounds_ordered_witness :
  exists a b : Z,
    maxTicksOf (Fin 168) (Fin 0.5) = Fin (IZR b)
    /\ minTicksOf (maxTicksOf (Fin 168) (Fin 0.5)) = Fin (IZR a)
    /\ (0 <= a <= b)%Z /\ (b <= 10)%Z /\ (a <= 5)%Z.
Proof.
  apply spawn_bounds_ordered.
  rewrite div_Fin by lra. simpl. apply Rleb_true. lra.
Defined.

(** ** URL parameters *)

(** X18.  [getNumericParam] never returns [NaN] unless the default is
    [NaN]: a missing, empty or unparsable parameter yields the default, any
    other one its parsed value; and when the URL repeats a parameter, its
    first occurrence decides. *)
Theorem getNumericParam_never_NaN (parseFn : string -> number)
    (params : list (string * string)) (name : string) (defaultValue : number) :
  (Num.isNaN defaultValue = false ->
   Num.isNaN (getNumericParam parseFn params name defaultValue) = false)
  /\ (searchParams_get params name = None
      \/ searchParams_get params name = Some EmptyString ->
      getNumericParam parseFn params name defaultValue = defaultValue)
  /\ (forall raw, searchParams_get params name = Some raw ->
        raw <> EmptyString ->
        getNumericParam parseFn params name defaultValue
        = if Num.isNaN (parseFn raw) then defaultValue else parseFn raw)
  /\ (forall before raw after,
        (forall kv, In kv before -> fst kv <> name) ->
        params = before ++ (name, raw) :: after ->
        searchParams_get params name = Some raw).
Proof.
  unfold getNumericParam. split; [| split; [| split]].
  - intros Hd. destruct (searchParams_get params name) as [raw |]; [| exact Hd].
    destruct (String.eqb raw EmptyString); [exact Hd |].
    destruct (Num.isNaN (parseFn raw)) eqn:Hv; [exact Hd | exact Hv].
  - intros [-> | ->]; reflexivity.
  - intros raw -> Hne. apply String.eqb_neq in Hne. now rewrite Hne.
  - intros before raw after Hbefore ->. unfold searchParams_get.
    induction before as [| kv before IH]; simpl.
    + now rewrite String.eqb_refl.
    + assert (Hkv : String.eqb (fst kv) name = false).
      { apply String.eqb_neq. apply Hbefore. now left. }
      rewrite Hkv. apply IH. intros kv' Hin. apply Hbefore. now right.
Qed.

(** ** DataStore: batches of station fetches *)

Lemma removelast_cons {A : Type} (a : A) (l : list A) :
  l <> [] -> removelast (a :: l) = a :: removelast l.
Proof. destruct l; [congruence | reflexivity]. Qed.

Lemma loadLoop_spec (store : DataStore.t) (stored : list string) (n : nat) :
  DataStore.batchSize store = Fin (INR n) -> (1 <= n)%nat ->
  forall links pending,
    (length pending < n)%nat ->
    concat (DataStore.loadLoop store stored links pending)
    = pending ++ filter (DataStore.wanted store stored) links
    /\ Forall (fun b => (1 <= length b <= n)%nat)
              (DataStore.loadLoop store stored links pending)
    /\ Forall (fun b => length b = n)
              (removelast (DataStore.loadLoop store stored links pending)).
Proof.
  intros Hsize Hn.
  induction links as [| station links IH]; intros pending Hlen.
  - cbn [DataStore.loadLoop filter]. rewrite app_nil_r.
    destruct (Nat.ltb_spec 0 (length pending)).
    + simpl. rewrite app_nil_r. repeat split; repeat constructor; lia.
    + destruct pending; [| simpl in *; lia]. repeat split; constructor.
  - cbn [DataStore.loadLoop filter]. fold (DataStore.wanted store stored station).
    destruct (DataStore.wanted store stored station).
    + rewrite Hsize. cbn [Num.leb]. rewrite length_app. cbn [length].
      destruct (Rle_dec (INR n) (INR (length pending + 1))) as [Hfull | Hroom].
      * rewrite (Rleb_true _ _ Hfull). apply INR_le in Hfull.
        destruct (IH [] ltac:(simpl; lia)) as (Hc & Hall & Hinit).
        assert (Hfulllen : length (pending ++ [station]) = n)
          by (rewrite length_app; simpl; lia).
        split; [| split].
        -- cbn [concat]. rewrite Hc. now rewrite <- app_assoc.
        -- constructor; [lia | exact Hall].
        -- destruct (DataStore.loadLoop store stored links []) as [| b bs] eqn:Hrest.
           ++ constructor.
           ++ rewrite removelast_cons by discriminate.
              constructor; [exact Hfulllen | exact Hinit].
      * rewrite (Rleb_false _ _ Hroom).
        assert (Hlt : (length (pending ++ [station]) < n)%nat).
        { rewrite length_app. simpl.
          destruct (Nat.lt_ge_cases (length pending + 1) n) as [H | H]; [exact H |].
          exfalso. apply Hroom. now apply le_INR. }
        destruct (IH (pending ++ [station]) Hlt) as (Hc & Hall & Hinit).
        split; [| split]; auto. rewrite Hc. now rewrite <- app_assoc.
    + apply IH. exact Hlen.
Qed.

(** X19.  The batches of [load].  With a batch size [n >= 1], the
    stations handed to [resolveBatch] are, batch after batch and in the
    order of the page, exactly the links of the stations that are selected
    and have no report in the cache, each link once: none is skipped, and
    none is fetched that the cache already holds.  No batch is empty or larger
    than [n], and every batch but the last holds exactly [n] stations. *)
Theorem load_batches (store : DataStore.t) (stored : list string)
    (links : list Station) (n : nat) :
  DataStore.batchSize store = Fin (INR n) -> (1 <= n)%nat ->
  concat (DataStore.loadBatches store stored links)
  = filter (DataStore.wanted store stored) links
  /\ Forall (fun b => (1 <= length b <= n)%nat)
            (DataStore.loadBatches store stored links)
  /\ Forall (fun b => length b = n)
            (removelast (DataStore.loadBatches store stored links))
  /\ Forall (Forall (fun station =>
                       Set_has (DataStore.stations store) (code station) = true
                       /\ Set_has stored (code station) = false))
            (DataStore.loadBatches store stored links).
Proof.
  intros Hsize Hn. unfold DataStore.loadBatches.
  destruct (loadLoop_spec store stored n Hsize Hn links [] ltac:(simpl; lia))
    as (Hc & Hall & Hinit).
  simpl app in Hc. repeat split; auto.
  apply Forall_forall. intros b Hb. apply Forall_forall. intros station Hst.
  assert (Hin : In station (concat (DataStore.loadLoop store stored links []))).
  { apply in_concat. now exists b. }
  rewrite Hc in Hin. apply filter_In in Hin. destruct Hin as [_ Hw].
  unfold DataStore.wanted in Hw. apply andb_true_iff in Hw.
  destruct Hw as [H1 H2]. apply negb_true_iff in H2. now split.
Qed.

Lemma load_batches_witness :
  concat (DataStore.loadBatches
            (DataStore.mk ["ALB"; "BOS"]%string (Fin (INR 1)) (Fin 86400))
            ["BOS"]%string
            [mkStation "ALB" None None; mkStation "BOS" None None;
             mkStation "XXX" None None])
  = filter (DataStore.wanted
              (DataStore.mk ["ALB"; "BOS"]%string (Fin (INR 1)) (Fin 86400))
              ["BOS"]%string)
           [mkStation "ALB" None None; mkStation "BOS" None None;
            mkStation "XXX" None None].
Proof.
  exact (proj1 (load_batches
                  (DataStore.mk ["ALB"; "BOS"]%string (Fin (INR 1)) (Fin 86400))
                  ["BOS"]%string
                  [mkStation "ALB" None None; mkStation "BOS" None None;
                   mkStation "XXX" None None]
                  1 eq_refl (le_n 1))).
Defined.

Lemma orElse_fallback (given : option number) (fallback : number) :
  given = None \/ given = Some (Fin 0) \/ given = Some NaN ->
  orElse given fallback = fallback.
Proof.
  intros [-> | [-> | ->]]; try reflexivity.
  unfold orElse, truthy. simpl. now rewrite Reqb_true.
Qed.

(** X20.  The constructor never keeps a falsy number.  A store built
    without a batch size, or with a batch size of 0 or [NaN], fetches in
    batches of exactly 8 (the last one may be shorter, none is empty); and
    a time-to-live that is absent, 0 or [NaN] becomes one day (86400 s). *)
Theorem DataStore_new_defaults (o : DataStore.options) (stored : list string)
    (links : list Station) :
  (DataStore.opt_batchSize o = None \/ DataStore.opt_batchSize o = Some (Fin 0)
   \/ DataStore.opt_batchSize o = Some NaN ->
   DataStore.batchSize (DataStore.new o) = Fin 8
   /\ Forall (fun b => (1 <= length b <= 8)%nat)
             (DataStore.loadBatches (DataStore.new o) stored links)
   /\ Forall (fun b => length b = 8%nat)
             (removelast (DataStore.loadBatches (DataStore.new o) stored links)))
  /\ (DataStore.opt_ttl o = None \/ DataStore.opt_ttl o = Some (Fin 0)
      \/ DataStore.opt_ttl o = Some NaN ->
      DataStore.ttl (DataStore.new o) = Fin (24 * 60 * 60))
  /\ truthy (DataStore.batchSize (DataStore.new o)) = true
  /\ truthy (DataStore.ttl (DataStore.new o)) = true.
Proof.
  assert (Htruthy : forall given x, x <> 0 -> truthy (orElse given (Fin x)) = true).
  { intros given x Hx. unfold orElse.
    destruct given as [v |].
    - destruct (truthy v) eqn:Hv; [exact Hv |].
      unfold truthy. simpl. now rewrite Reqb_false.
    - unfold truthy. simpl. now rewrite Reqb_false. }
  split; [| split; [| split]].
  - intros Hb.
    assert (H8 : DataStore.batchSize (DataStore.new o) = Fin (INR 8)).
    { cbn [DataStore.new DataStore.batchSize]. rewrite (orElse_fallback _ _ Hb).
      f_equal. simpl. lra. }
    split.
    + rewrite H8. f_equal. simpl. lra.
    + unfold DataStore.loadBatches.
      destruct (loadLoop_spec (DataStore.new o) stored 8 H8 ltac:(lia) links []
                  ltac:(simpl; lia)) as (_ & Hall & Hinit).
      split; assumption.
  - intros Ht. cbn [DataStore.new DataStore.ttl]. now apply orElse_fallback.
  - cbn [DataStore.new DataStore.batchSize]. apply Htruthy. lra.
  - cbn [DataStore.new DataStore.ttl]. apply Htruthy. lra.
Qed.
